(** * RAG over PDF URLs: a shallow embedding of the notebook pipeline

    The notebook [rag.ipynb] chains eight steps: fetch PDF pages, trim their
    metadata, split the text into overlapping chunks, store the chunks in a
    Chroma collection, query the collection, join the results into a
    context, build the instruction for the chat model and ask it.

    Python values are embedded as follows: [str] is [string], [int] is [Z],
    a [dict] with string keys is a [gmap string _] (equality of dicts does
    not depend on insertion order, as for [gmap]), a [list] is a [list], and
    a call that may raise returns a [result]. *)

From Stdlib Require Import ZArith QArith Ascii Lia.
From Stdlib Require String.
From stdpp Require Import base option list gmap strings fin_maps sorting.

Open Scope Z_scope.

(** ** Python basics *)

(** The exceptions the embedded code can raise. *)
Inductive exn : Type :=
| KeyError (key : string)
| ValueError (msg : string)
| TypeError (msg : string)
| IndexError (msg : string).

Inductive result (A : Type) : Type :=
| Ok (a : A)
| Raise (e : exn).
Arguments Ok {A} a.
Arguments Raise {A} e.

#[global] Instance result_ret : MRet result := fun A a => Ok a.
#[global] Instance result_bind : MBind result := fun A B k r =>
  match r with
  | Ok a => k a
  | Raise e => Raise e
  end.
#[global] Instance result_fmap : FMap result := fun A B f r =>
  match r with
  | Ok a => Ok (f a)
  | Raise e => Raise e
  end.

(** [for x in xs: acc.append(f(x))] where [f] may raise. *)
Fixpoint for_each {A B} (f : A -> result B) (xs : list A) : result (list B) :=
  match xs with
  | [] => Ok []
  | x :: xs' => y ← f x; ys ← for_each f xs'; Ok (y :: ys)
  end.

(** The scalar values a PDF page's metadata holds. *)
Inductive scalar : Type :=
| PyStr (s : string)
| PyInt (n : Z)
| PyNone.

#[global] Instance scalar_eq_dec : EqDecision scalar.
Proof. solve_decision. Defined.

(** [langchain.schema.Document]: a page or a chunk. *)
Record Document : Type := mkDocument {
  page_content : string;
  metadata : gmap string scalar
}.

#[global] Instance Document_eq_dec : EqDecision Document.
Proof. solve_decision. Defined.

Definition newline : string := String (ascii_of_nat 10) EmptyString.

(** [sep.join(parts)] *)
Fixpoint str_join (sep : string) (parts : list string) : string :=
  match parts with
  | [] => ""
  | [p] => p
  | p :: rest => p +:+ sep +:+ str_join sep rest
  end.

(** ** Step 2: trim metadata *)

Definition important_metadata : list string :=
  ["title"; "page"; "creator"; "author"].

(** [{key: md.get(key) for key in important if key in md}] *)
Definition trimmed_metadata (important : list string) (md : gmap string scalar)
  : gmap string scalar :=
  foldl (fun acc key =>
           match md !! key with
           | Some v => <[key := v]> acc
           | None => acc
           end) ∅ important.

(** The loop that builds [trimmed_pdf_data]. *)
Definition trimmed_pdf_data (important : list string) (pdf_data : list Document)
  : list Document :=
  map (fun data => mkDocument (page_content data)
                              (trimmed_metadata important (metadata data)))
      pdf_data.

(** ** Step 3: split text into chunks

    [split_text] builds a [CharacterTextSplitter] and calls its
    [split_documents].  The splitter belongs to the [langchain] library the
    notebook imports; it is embedded here with the defaults the notebook
    leaves untouched ([keep_separator=False], [strip_whitespace=True],
    [length_function=len], a literal separator). *)

(** [c.isspace()] for an ASCII character. *)
Definition is_space (c : ascii) : bool :=
  let n := nat_of_ascii c in
  ((9 <=? n)%nat && (n <=? 13)%nat) || ((28 <=? n)%nat && (n <=? 32)%nat).

Fixpoint lstrip (s : string) : string :=
  match s with
  | EmptyString => EmptyString
  | String c s' => if is_space c then lstrip s' else s
  end.

Fixpoint rstrip (s : string) : string :=
  match s with
  | EmptyString => EmptyString
  | String c s' =>
      match rstrip s' with
      | EmptyString => if is_space c then EmptyString else String c EmptyString
      | r => String c r
      end
  end.

(** [s.strip()] *)
Definition strip (s : string) : string := lstrip (rstrip s).

(** [text.split(sep)] for a non-empty [sep], scanning left to right:
    [skip] characters of a separator just matched are still to be passed,
    [piece] holds the characters of the current piece in reverse. *)
Fixpoint split_scan (sep : string) (skip : nat) (piece : list ascii) (s : string)
  : list string :=
  match s with
  | EmptyString => [String.string_of_list_ascii (rev piece)]
  | String c s' =>
      match skip with
      | S k => split_scan sep k piece s'
      | O =>
          if String.prefix sep s
          then String.string_of_list_ascii (rev piece)
                 :: split_scan sep (String.length sep - 1) [] s'
          else split_scan sep 0 (c :: piece) s'
      end
  end.

(** [list(text)] *)
Fixpoint characters (s : string) : list string :=
  match s with
  | EmptyString => []
  | String c s' => String c EmptyString :: characters s'
  end.

(** [re.split(re.escape(separator), text)], and [list(text)] for an empty
    separator. *)
Definition str_split (separator text : string) : list string :=
  match separator with
  | EmptyString => characters text
  | _ => split_scan separator 0 [] text
  end.

(** [_split_text_with_regex(text, re.escape(separator), keep_separator=False)]:
    the pieces between the occurrences of the separator, the empty ones
    left out. *)
Definition split_pieces (separator text : string) : list string :=
  filter (fun s => s ≠ "") (str_split separator text).

Record TextSplitter : Type := mkTextSplitter {
  chunk_size : Z;
  chunk_overlap : Z;
  separator : string
}.

(** The constructor: the only check is [chunk_overlap > chunk_size]. *)
Definition CharacterTextSplitter (chunk_overlap chunk_size : Z) (separator : string)
  : result TextSplitter :=
  if chunk_size <? chunk_overlap
  then Raise (ValueError "Got a larger chunk overlap than chunk size, should be smaller.")
  else Ok (mkTextSplitter chunk_size chunk_overlap separator).

Definition len (s : string) : Z := Z.of_nat (String.length s).

(** [_join_docs]: join, strip, and [None] for an empty text. *)
Definition join_docs (separator : string) (docs : list string) : option string :=
  match strip (str_join separator docs) with
  | EmptyString => None
  | text => Some text
  end.

(** The [while] loop of [_merge_splits] that pops pieces off the front of
    [current_doc] until what is left fits the overlap and leaves room for
    the piece of length [len_d]. *)
Fixpoint pop_front (sp : TextSplitter) (separator_len len_d : Z)
    (current_doc : list string) (total : Z) : result (list string * Z) :=
  if (chunk_overlap sp <? total)
     || ((chunk_size sp <?
            total + len_d + (if current_doc is [] then 0 else separator_len))
         && (0 <? total))
  then
    match current_doc with
    | [] => Raise (IndexError "list index out of range")
    | first :: rest =>
        pop_front sp separator_len len_d rest
          (total - (len first + (if rest is [] then 0 else separator_len)))
    end
  else Ok (current_doc, total).

(** One iteration of [for d in splits] in [_merge_splits]; the state is
    [(docs, current_doc, total)]. *)
Definition merge_step (sp : TextSplitter) (separator : string)
    (st : list string * list string * Z) (d : string)
  : result (list string * list string * Z) :=
  let '(docs, current_doc, total) := st in
  let separator_len := len separator in
  let _len := len d in
  if chunk_size sp <?
       total + _len + (if current_doc is [] then 0 else separator_len)
  then
    match current_doc with
    | [] => Ok (docs, [d], total + _len)
    | _ =>
        let docs' :=
          match join_docs separator current_doc with
          | Some doc => docs ++ [doc]
          | None => docs
          end in
        '(current_doc', total') ← pop_front sp separator_len _len current_doc total;
        Ok (docs', current_doc' ++ [d],
            total' + _len + (if current_doc' is [] then 0 else separator_len))
    end
  else
    Ok (docs, current_doc ++ [d],
        total + _len + (if current_doc is [] then 0 else separator_len)).

Fixpoint merge_loop (sp : TextSplitter) (separator : string)
    (st : list string * list string * Z) (splits : list string)
  : result (list string * list string * Z) :=
  match splits with
  | [] => Ok st
  | d :: splits' =>
      st' ← merge_step sp separator st d;
      merge_loop sp separator st' splits'
  end.

(** [_merge_splits] *)
Definition merge_splits (sp : TextSplitter) (splits : list string)
    (separator : string) : result (list string) :=
  '(docs, current_doc, _) ← merge_loop sp separator ([], [], 0) splits;
  Ok (match join_docs separator current_doc with
      | Some doc => docs ++ [doc]
      | None => docs
      end).

(** [CharacterTextSplitter.split_text] *)
Definition splitter_split_text (sp : TextSplitter) (text : string)
  : result (list string) :=
  merge_splits sp (split_pieces (separator sp) text) (separator sp).

(** [TextSplitter.split_documents]: every chunk of a document carries a
    copy of that document's metadata. *)
Definition split_documents (split : string -> result (list string))
    (documents : list Document) : result (list Document) :=
  chunks ← for_each (fun doc =>
                      texts ← split (page_content doc);
                      Ok (map (fun chunk => mkDocument chunk (metadata doc)) texts))
                    documents;
  Ok (concat chunks).

(** The notebook's [split_text]. *)
Definition split_text (documents : list Document)
    (chunk_overlap chunk_size : Z) (separator : string)
  : result (list Document) :=
  splitter ← CharacterTextSplitter chunk_overlap chunk_size separator;
  split_documents (splitter_split_text splitter) documents.

(** ** Step 4: the vector store

    The store is a Chroma collection and the embeddings come from OpenAI:
    both are services outside the repository.  They are modelled from the
    spec; [add_documents_to_vector_store] is the notebook's own. *)

(** Modelled from the spec: the Embedding Gateway, text to vector, and the
    metric of the index.  Distances are idealised as rationals. *)
Class EmbeddingGateway : Type := {
  Vec : Type;
  embed : string -> Vec;
  distance : Vec -> Vec -> Q
}.

Section VectorStore.
Context `{EmbeddingGateway}.

(** Modelled from the spec: the Vector Store, which the notebook takes from
    the Chroma library.  An Embedded Record is [{id, content, metadata,
    vector}]; the store holds its records in insertion order. *)
Record EmbeddedRecord : Type := mkRecord {
  rec_id : nat;
  rec_content : string;
  rec_metadata : gmap string scalar;
  rec_vector : Vec
}.

Definition Chroma : Type := list EmbeddedRecord.

(** What a search result shows of a record: its content and metadata (the
    notebook prints [{'author': '', 'creator': 'Writer', 'page': 5,
    'title': ''}] for a result: the identifier is no metadata key). *)
Definition to_document (r : EmbeddedRecord) : Document :=
  mkDocument (rec_content r) (rec_metadata r).

Definition stored_documents (store : Chroma) : list Document :=
  map to_document store.

(** Modelled from the spec: a fresh unique identifier, one no stored record
    carries. *)
Definition fresh_id (store : Chroma) : nat :=
  S (max_list (map rec_id store)).

(** Modelled from the spec: [add_documents] embeds every chunk and appends
    it under a fresh identifier. *)
Fixpoint add_documents (store : Chroma) (documents : list Document) : Chroma :=
  match documents with
  | [] => store
  | d :: rest =>
      add_documents
        (store ++ [mkRecord (fresh_id store) (page_content d) (metadata d)
                            (embed (page_content d))])
        rest
  end.

(** Insertion into a list ranked by [score], before the first record that
    does not score better: a record inserted earlier stays ahead of its
    ties. *)
Fixpoint insert_ranked (score : EmbeddedRecord -> Q) (r : EmbeddedRecord)
    (ranked : list EmbeddedRecord) : list EmbeddedRecord :=
  match ranked with
  | [] => [r]
  | r' :: rest =>
      if Qle_bool (score r) (score r')
      then r :: r' :: rest
      else r' :: insert_ranked score r rest
  end.

Definition rank_by (score : EmbeddedRecord -> Q) (store : Chroma)
  : list EmbeddedRecord :=
  foldr (insert_ranked score) [] store.

(** [r1] is ranked no worse than [r2]; [r] lies at distance [q]. *)
Definition no_worse (score : EmbeddedRecord -> Q) (r1 r2 : EmbeddedRecord) : Prop :=
  (score r1 <= score r2)%Q.

Definition tied (score : EmbeddedRecord -> Q) (q : Q) (r : EmbeddedRecord) : Prop :=
  (score r == q)%Q.

#[global] Instance tied_dec score q r : Decision (tied score q r) :=
  Qeq_dec (score r) q.

Definition query_distance (query : string) (r : EmbeddedRecord) : Q :=
  distance (embed query) (rec_vector r).

(** Modelled from the spec: [search(query, k)] embeds the query, ranks all
    stored vectors by their distance to it, earliest inserted first among
    ties, and returns the [k] best. *)
Definition search (store : Chroma) (query : string) (k : nat)
  : list EmbeddedRecord :=
  take k (rank_by (query_distance query) store).

(** [vector_store.similarity_search(query, k=k)]: the search of the spec
    takes a positive integer [k]; anything else is refused.  The results
    are Documents. *)
Definition similarity_search (store : Chroma) (query : string) (k : option Z)
  : result (list Document) :=
  match k with
  | None => Raise (ValueError "Expected requested number of results to be a int")
  | Some k =>
      if 0 <? k
      then Ok (map to_document (search store query (Z.to_nat k)))
      else Raise (TypeError "Number of requested results cannot be negative, or zero.")
  end.

(** [del doc.metadata['id']] on a copy of [doc] *)
Definition del_id (doc : Document) : result Document :=
  match metadata doc !! "id" with
  | Some _ => Ok (mkDocument (page_content doc) (delete "id" (metadata doc)))
  | None => Raise (KeyError "id")
  end.

(** The notebook's [add_documents_to_vector_store]. *)
Definition add_documents_to_vector_store (vector_store : Chroma)
    (ingest_data : list Document) (allow_duplicates : bool) (limit : option Z)
  : result Chroma :=
  match ingest_data with
  | [] => Ok vector_store
  | _ =>
      _stored_documents_without_id ←
        (if negb allow_duplicates
         then stored_data ← similarity_search vector_store "" limit;
              for_each del_id stored_data
         else Ok []);
      let documents_to_add :=
        filter (fun doc => doc ∉ _stored_documents_without_id) ingest_data in
      match documents_to_add with
      | [] => Ok vector_store
      | _ => Ok (add_documents vector_store documents_to_add)
      end
  end.

(** ** Steps 5 and 6: query the store and join the results *)

(** ["\n".join([result.page_content for result in search_results])] *)
Definition search_result_text (search_results : list Document) : string :=
  str_join newline (map page_content search_results).

(** [search_results = chroma_store.similarity_search(query, k=5)] *)
Definition search_results (chroma_store : Chroma) (query : string)
  : result (list Document) :=
  similarity_search chroma_store query (Some 5).

(** Steps 5 and 6 together, for any number [k] of results. *)
Definition retrieve (store : Chroma) (query : string) (k : Z) : result string :=
  search_results ← similarity_search store query (Some k);
  Ok (search_result_text search_results).

End VectorStore.

(** ** Steps 7 and 8: the instruction and the answer *)

(** [f"Context: {search_result_text} \nQuestion: {query}"] *)
Definition instructions (search_result_text query : string) : string :=
  "Context: " +:+ search_result_text +:+ " " +:+ newline +:+ "Question: " +:+ query.

Record ChatMessage : Type := mkMessage { role : string; content : string }.
Record ChatRequest : Type := mkRequest { model : string; messages : list ChatMessage }.

(** The chat model behind the OpenAI client: what it answers to a request,
    and the requests it has been sent. *)
Record OpenAI : Type := mkClient {
  respond : ChatRequest -> string;
  requests : list ChatRequest
}.

(** [client.chat.completions.create(...)] followed by
    [result.choices[0].message.content] *)
Definition chat_completions_create (client : OpenAI) (request : ChatRequest)
  : string * OpenAI :=
  (respond client request, mkClient (respond client) (requests client ++ [request])).

(** Step 8 of the notebook. *)
Definition answer (client : OpenAI) (llm_model context query : string)
  : string * OpenAI :=
  chat_completions_create client
    (mkRequest llm_model [mkMessage "user" (instructions context query)]).

(** ** Step 1: validate the URLs and fetch the pages

    Text is read as ASCII.  A pattern is embedded as a regular expression
    over character classes and matched by derivatives: for a pattern without
    back-references, [pattern.match(string)] anchored at both ends succeeds
    exactly when the string belongs to the language of the pattern. *)

Inductive regex : Type :=
| Never
| Epsilon
| Class (p : ascii -> bool)
| Seq (r1 r2 : regex)
| Or (r1 r2 : regex)
| Star (r : regex).

(** [r?] and [r+] *)
Definition opt (r : regex) : regex := Or Epsilon r.
Definition plus (r : regex) : regex := Seq r (Star r).

(** [c.lower()] for an ASCII character. *)
Definition lower (c : ascii) : ascii :=
  let n := nat_of_ascii c in
  if (65 <=? n)%nat && (n <=? 90)%nat then ascii_of_nat (n + 32) else c.

(** A literal character and a literal text under [re.IGNORECASE]. *)
Definition lit (ch : ascii) : regex :=
  Class (fun c => Ascii.eqb (lower c) (lower ch)).

Fixpoint lits (s : string) : regex :=
  match s with
  | EmptyString => Epsilon
  | String ch s' => Seq (lit ch) (lits s')
  end.

(** [[a-zA-Z]], [\d] and [[a-zA-Z0-9.-]] *)
Definition is_letter (c : ascii) : bool :=
  let n := nat_of_ascii c in
  ((65 <=? n)%nat && (n <=? 90)%nat) || ((97 <=? n)%nat && (n <=? 122)%nat).

Definition is_digit (c : ascii) : bool :=
  let n := nat_of_ascii c in (48 <=? n)%nat && (n <=? 57)%nat.

Definition is_domain_char (c : ascii) : bool :=
  is_letter c || is_digit c || Ascii.eqb c "." || Ascii.eqb c "-".

(** The groups of the pattern of [ensure_url]: the optional protocol,
    the optional www, the domain, the optional top-level domain, the
    optional port and the optional path (a slash, then any characters but
    white space). *)
Definition protocol : regex := Seq (lits "http") (Seq (opt (lit "s")) (lits "://")).
Definition www : regex := lits "www.".
Definition domain : regex := plus (Class is_domain_char).
Definition top_level_domain : regex :=
  Seq (lit ".") (Seq (Class is_letter) (plus (Class is_letter))).
Definition port : regex := Seq (lit ":") (plus (Class is_digit)).
Definition path : regex := Seq (lit "/") (Star (Class (fun c => negb (is_space c)))).

(** [$] without [re.MULTILINE]: the end of the string, or the place just
    before a newline that ends the string. *)
Definition dollar : regex := opt (Class (Ascii.eqb (ascii_of_nat 10))).

(** The pattern of [ensure_url]; the [^] goes without saying for
    [pattern.match]. *)
Definition url_regex : regex :=
  Seq (opt protocol)
 (Seq (opt www)
 (Seq domain
 (Seq (opt top_level_domain)
 (Seq (opt port)
 (Seq (opt path) dollar))))).

Fixpoint nullable (r : regex) : bool :=
  match r with
  | Never => false
  | Epsilon => true
  | Class _ => false
  | Seq r1 r2 => nullable r1 && nullable r2
  | Or r1 r2 => nullable r1 || nullable r2
  | Star _ => true
  end.

(** Sequence and choice that drop what cannot match. *)
Definition seq (r1 r2 : regex) : regex :=
  match r1, r2 with
  | Never, _ => Never
  | _, Never => Never
  | Epsilon, _ => r2
  | _, Epsilon => r1
  | _, _ => Seq r1 r2
  end.

Definition alt (r1 r2 : regex) : regex :=
  match r1, r2 with
  | Never, _ => r2
  | _, Never => r1
  | _, _ => Or r1 r2
  end.

(** What is left of [r] once the character [c] has been read. *)
Fixpoint deriv (c : ascii) (r : regex) : regex :=
  match r with
  | Never => Never
  | Epsilon => Never
  | Class p => if p c then Epsilon else Never
  | Seq r1 r2 =>
      alt (seq (deriv c r1) r2) (if nullable r1 then deriv c r2 else Never)
  | Or r1 r2 => alt (deriv c r1) (deriv c r2)
  | Star r1 => seq (deriv c r1) (Star r1)
  end.

Fixpoint derivs (s : string) (r : regex) : regex :=
  match s with
  | EmptyString => r
  | String c s' => derivs s' (deriv c r)
  end.

(** The whole of [s] matches [r]. *)
Definition accepts (r : regex) (s : string) : bool := nullable (derivs s r).

(** The language of a regular expression. *)
Inductive lang : regex -> string -> Prop :=
| lang_epsilon : lang Epsilon ""
| lang_class p c : p c = true -> lang (Class p) (String c "")
| lang_seq r1 r2 s1 s2 : lang r1 s1 -> lang r2 s2 -> lang (Seq r1 r2) (s1 +:+ s2)
| lang_or_l r1 r2 s : lang r1 s -> lang (Or r1 r2) s
| lang_or_r r1 r2 s : lang r2 s -> lang (Or r1 r2) s
| lang_star_nil r : lang (Star r) ""
| lang_star_cons r s1 s2 : lang r s1 -> lang (Star r) s2 -> lang (Star r) (s1 +:+ s2).

(** Every character class of [r] lies within [P]. *)
Fixpoint classes_within (P : ascii -> bool) (r : regex) : Prop :=
  match r with
  | Never | Epsilon => True
  | Class p => forall c, p c = true -> P c = true
  | Seq r1 r2 | Or r1 r2 => classes_within P r1 /\ classes_within P r2
  | Star r1 => classes_within P r1
  end.

(** Every character of [s] satisfies [P]. *)
Fixpoint all_chars (P : ascii -> bool) (s : string) : bool :=
  match s with
  | EmptyString => true
  | String c s' => P c && all_chars P s'
  end.

(** The notebook's [ensure_url]. *)
Definition ensure_url (url : string) : result string :=
  let url :=
    if String.prefix "http://" url || String.prefix "https://" url
    then url
    else "http://" +:+ url in
  if accepts url_regex url
  then Ok url
  else Raise (ValueError ("Invalid URL: " +:+ url)).

(** What the body of the [try] in [fetch_pdf_content] comes to for one URL:
    the pages the loader read from the downloaded file, a
    [requests.exceptions.RequestException], or another exception. *)
Inductive fetched : Type :=
| Pages (pdf_docs : list Document)
| RequestException (msg : string)
| OtherException (e : exn).

Definition pages_of (outcome : fetched) : list Document :=
  match outcome with
  | Pages pdf_docs => pdf_docs
  | _ => []
  end.

Section Fetch.

(** The network and the PDF loader: the outcome of a request for a URL,
    given the requests made before it. *)
Variable download : list string -> string -> fetched.

(** The outcomes of requesting [urls] one after the other. *)
Fixpoint responses (requested urls : list string) : list fetched :=
  match urls with
  | [] => []
  | url :: urls' => download requested url :: responses (requested ++ [url]) urls'
  end.

(** The loop [for url in urls] of [fetch_pdf_content]; the state is [data]
    and the URLs requested so far. *)
Fixpoint fetch_loop (urls : list string) (data : list Document)
    (requested : list string) : result (list Document) * list string :=
  match urls with
  | [] => (Ok data, requested)
  | url :: urls' =>
      match download requested url with
      | Pages pdf_docs =>
          fetch_loop urls'
            (data ++ map (fun pdf_doc => mkDocument (page_content pdf_doc)
                                                    (metadata pdf_doc)) pdf_docs)
            (requested ++ [url])
      | RequestException _ => fetch_loop urls' data (requested ++ [url])
      | OtherException e => (Raise e, requested ++ [url])
      end
  end.

(** [[ensure_url(url.strip()) for url in urls if url.strip()]] *)
Definition checked_urls (urls : list string) : result (list string) :=
  for_each (fun url => ensure_url (strip url))
           (filter (fun url => strip url ≠ "") urls).

(** The notebook's [fetch_pdf_content]: what it returns or raises, and the
    URLs it requested. *)
Definition fetch_pdf_content (urls : list string)
  : result (list Document) * list string :=
  match checked_urls urls with
  | Ok urls' => fetch_loop urls' [] []
  | Raise e => (Raise e, [])
  end.

(** The cell that fetches: [pdf_data] is what [fetch_pdf_content] returns,
    and stays empty when it raises. *)
Definition pdf_data (urls : list string) : list Document :=
  match (fetch_pdf_content urls).1 with
  | Ok data => data
  | Raise _ => []
  end.

(** The end of that cell prints [pdf_data[0]]. *)
Definition fetch_cell (urls : list string) : result (list Document) :=
  match pdf_data urls with
  | [] => Raise (IndexError "list index out of range")
  | data => Ok data
  end.

End Fetch.

(** ** Step 4: building the store *)

(** [chromadb.config.Settings] as [build_vector_store] fills it. *)
Record Settings : Type := mkSettings {
  chroma_server_cors_allow_origins : list string;
  chroma_server_host : string;
  chroma_server_http_port : option Z;
  chroma_server_grpc_port : option Z;
  chroma_server_ssl_enabled : option bool
}.

(** [port or None] *)
Definition port_or_None (port : option Z) : option Z :=
  match port with
  | Some 0 => None
  | _ => port
  end.

(** [persist_directory or None] *)
Definition directory_or_None (directory : option string) : option string :=
  match directory with
  | Some EmptyString => None
  | _ => directory
  end.

Section BuildVectorStore.
Context `{EmbeddingGateway}.

(** The collection the [Chroma] constructor opens or creates, from its
    name, its directory, its client settings and the embedding model. *)
Variable Chroma_init : string -> option string -> option Settings -> string -> Chroma.

(** The notebook's [build_vector_store]. *)
Definition build_vector_store (collection_name : string)
    (persist_directory : option string) (chroma_server_host : option string)
    (chroma_server_http_port chroma_server_grpc_port : option Z)
    (chroma_server_ssl_enabled : option bool)
    (chroma_server_cors_allow_origins : option (list string))
    (embedding_model : string) (ingest_data : option (list Document))
    (allow_duplicates : bool) (limit : option Z) : result Chroma :=
  let client :=
    match chroma_server_host with
    | None | Some EmptyString => None
    | Some host =>
        Some (mkSettings (default [] chroma_server_cors_allow_origins) host
                         (port_or_None chroma_server_http_port)
                         (port_or_None chroma_server_grpc_port)
                         chroma_server_ssl_enabled)
    end in
  let persist_directory := directory_or_None persist_directory in
  let chroma := Chroma_init collection_name persist_directory client embedding_model in
  add_documents_to_vector_store chroma (default [] ingest_data) allow_duplicates limit.

(** The cells from the trimming to the build, as the notebook sets them:
    [chunk_overlap = 200], [chunk_size = 1000], a space as separator,
    [allow_duplicates=False] and [limit=10]. *)
Definition chroma_store (collection_name embedding_model : string)
    (pdf_data : list Document) : result Chroma :=
  splitted_data ← split_text (trimmed_pdf_data important_metadata pdf_data) 200 1000 " ";
  build_vector_store collection_name None None None None (Some false) None
    embedding_model (Some splitted_data) false (Some 10).

End BuildVectorStore.

(** ** Notions for the statements about the splitter *)

(** The same loop with a ghost state: instead of the joined documents it
    keeps, for each document emitted, the pieces that were joined. *)
Definition merge_step_groups (sp : TextSplitter) (separator : string)
    (st : list (list string) * list string * Z) (d : string)
  : result (list (list string) * list string * Z) :=
  let '(groups, current_doc, total) := st in
  let separator_len := len separator in
  let _len := len d in
  if chunk_size sp <?
       total + _len + (if current_doc is [] then 0 else separator_len)
  then
    match current_doc with
    | [] => Ok (groups, [d], total + _len)
    | _ =>
        '(current_doc', total') ← pop_front sp separator_len _len current_doc total;
        Ok (groups ++ [current_doc], current_doc' ++ [d],
            total' + _len + (if current_doc' is [] then 0 else separator_len))
    end
  else
    Ok (groups, current_doc ++ [d],
        total + _len + (if current_doc is [] then 0 else separator_len)).

Fixpoint merge_loop_groups (sp : TextSplitter) (separator : string)
    (st : list (list string) * list string * Z) (splits : list string)
  : result (list (list string) * list string * Z) :=
  match splits with
  | [] => Ok st
  | d :: splits' =>
      st' ← merge_step_groups sp separator st d;
      merge_loop_groups sp separator st' splits'
  end.

Definition merge_groups (sp : TextSplitter) (splits : list string)
    (separator : string) : result (list (list string)) :=
  '(groups, current_doc, _) ← merge_loop_groups sp separator ([], [], 0) splits;
  Ok (groups ++ [current_doc]).

(** The documents of the groups: each group joined, the empty ones left
    out. *)
Definition join_groups (separator : string) (groups : list (list string))
  : list string :=
  omap (join_docs separator) groups.

(** The state of the library's loop that goes with a ghost state. *)
Definition joined (separator : string) (st : list (list string) * list string * Z)
  : list string * list string * Z :=
  (join_groups separator st.1.1, st.1.2, st.2).

(** The piece a scan holds, its characters put back in order. *)
Definition piece_of (piece : list ascii) : string :=
  String.string_of_list_ascii (rev piece).

(** [s[k:]] *)
Fixpoint drop_prefix (k : nat) (s : string) : string :=
  match k, s with
  | O, _ => s
  | S k', String _ s' => drop_prefix k' s'
  | S _, EmptyString => EmptyString
  end.

(** The chunks put together again, [cuts] giving for each chunk the length
    of the overlap to remove from its front. *)
Fixpoint reassemble (cuts : list nat) (chunks : list string) : string :=
  match cuts, chunks with
  | k :: cuts', chunk :: chunks' => drop_prefix k chunk +:+ reassemble cuts' chunks'
  | _, _ => ""
  end.

(** [stitched prev groups pieces]: every group is a suffix of the group
    before it (of [prev] for the first) followed by fresh pieces, and the
    fresh pieces of all groups, in order, are [pieces]. *)
Inductive stitched : list string -> list (list string) -> list string -> Prop :=
| stitched_nil prev : stitched prev [] []
| stitched_cons prev overlap fresh groups pieces :
    overlap `suffix_of` prev ->
    stitched (overlap ++ fresh) groups pieces ->
    stitched prev ((overlap ++ fresh) :: groups) (fresh ++ pieces).

(** [separator] occurs in [s]. *)
Definition occurs (separator s : string) : Prop :=
  exists a b, s = a +:+ separator +:+ b.

(** A group of pieces fits the chunk size, unless it is one piece that is
    itself too long. *)
Definition fits (sp : TextSplitter) (separator : string) (group : list string) : Prop :=
  group = []
  \/ len (str_join separator group) <= chunk_size sp
  \/ exists piece, group = [piece] /\ chunk_size sp < len piece.

(** The invariant of the merge loop once the pieces [processed] have been
    read: [total] is the length of the join of [current_doc]; every group
    fits; and the groups, with [current_doc] as the last one in the making,
    are stitched from [processed]. *)
Definition merge_inv (sp : TextSplitter) (separator : string)
    (processed : list string) (st : list (list string) * list string * Z) : Prop :=
  let '(groups, current_doc, total) := st in
  total = len (str_join separator current_doc)
  /\ Forall (fun p => p ≠ "") current_doc
  /\ Forall (fits sp separator) groups
  /\ fits sp separator current_doc
  /\ exists overlap fresh covered,
       current_doc = overlap ++ fresh
       /\ overlap `suffix_of` default [] (last groups)
       /\ stitched [] groups covered
       /\ processed = covered ++ fresh.

(** Every piece read so far that is longer than the chunk size is a group
    of its own, emitted already or in the making. *)
Definition oversized_alone (sp : TextSplitter) (processed : list string)
    (st : list (list string) * list string * Z) : Prop :=
  forall p, p ∈ processed -> chunk_size sp < len p -> [p] ∈ st.1.1 \/ st.1.2 = [p].

(** ** Notions for the statements about the store *)

Section Scan.
Context `{EmbeddingGateway}.



End Scan.

(** ** Notions for the statements about URLs *)

(** The string [ensure_url] matches against the pattern. *)
Definition with_scheme (url : string) : string :=
  if String.prefix "http://" url || String.prefix "https://" url
  then url
  else "http://" +:+ url.

(** The pattern once a scheme has been read. *)
Definition url_rest : regex :=
  Seq (opt www)
 (Seq domain
 (Seq (opt top_level_domain)
 (Seq (opt port)
 (Seq (opt path) dollar)))).

(** A scheme, a host of letters, digits, dots and hyphens, then optionally
    a colon with digits, optionally a slash with characters other than
    white space, and optionally one final newline. *)
Definition url_shape (url : string) : Prop :=
  exists scheme host port path eol,
    url = scheme +:+ host +:+ port +:+ path +:+ eol
    /\ (scheme = "http://" \/ scheme = "https://")
    /\ host <> "" /\ all_chars is_domain_char host = true
    /\ (port = ""
        \/ exists digits, port = ":" +:+ digits
             /\ digits <> "" /\ all_chars is_digit digits = true)
    /\ (path = ""
        \/ exists rest, path = "/" +:+ rest
             /\ all_chars (fun c => negb (is_space c)) rest = true)
    /\ (eol = "" \/ eol = newline).

(** ** Samples *)

(** A document without metadata. *)
Definition doc (s : string) : Document := mkDocument s ∅.

(** A small gateway to run the store on: a text is embedded as its length,
    and the distance is the absolute difference. *)
Definition length_gateway : EmbeddingGateway :=
  {| Vec := Z; embed := len; distance := fun a b => inject_Z (Z.abs (a - b)) |}.

(** A page as the loader returns it, with more metadata than is kept. *)
Definition sample_page : Document :=
  mkDocument "aa bb cc dd"
    (<["title" := PyStr ""]>
       (<["page" := PyInt 0]> (<["source" := PyStr "/tmp/tmpw3wbv20w.pdf"]> ∅))).

(** A store of four chunks, two of them at the same distance of the query
    "x". *)
Definition sample_store : list (@EmbeddedRecord length_gateway) :=
  add_documents (H := length_gateway) []
    [doc "aaa"; doc "b"; doc "cc"; doc "d"].


(** A store whose one record carries an "id" key in its metadata. *)
Definition keyed_store : list (@EmbeddedRecord length_gateway) :=
  add_documents (H := length_gateway) []
    [mkDocument "b" (<["id" := PyStr "7"]> ∅)].

(** A loader for the samples: one page for the first URL, a failed request
    for any other. *)
Definition sample_download (requested : list string) (url : string) : fetched :=
  if String.eqb url "http://a.org/1.pdf"
  then Pages [mkDocument "aa bb cc dd" (<["page" := PyInt 0]> ∅)]
  else RequestException "404 Client Error".

(** A loader that breaks on a file that is no PDF. *)
Definition broken_download (requested : list string) (url : string) : fetched :=
  if String.eqb url "http://a.org/1.pdf"
  then Pages [mkDocument "aa bb cc dd" (<["page" := PyInt 0]> ∅)]
  else OtherException (ValueError "Failed to open file").

(** * Properties *)

(** ** Running the splitter *)

Example empty_pieces_dropped :
  split_text [doc "a,,b, c"] 0 1 "," = Ok [doc "a"; doc "b"; doc "c"].
Proof. vm_compute. reflexivity. Qed.

(** ** The error monad *)

Lemma bind_Ok {A B} (r : result A) (k : A -> result B) (b : B) :
  r ≫= k = Ok b -> exists a, r = Ok a /\ k a = Ok b.
Proof. destruct r as [a|e]; simpl; [eauto | discriminate]. Qed.

Lemma for_each_Ok_elem {A B} (f : A -> result B) xs ys y :
  for_each f xs = Ok ys -> y ∈ ys -> exists x, x ∈ xs /\ f x = Ok y.
Proof.
  revert ys. induction xs as [|x xs IH]; intros ys Hrun Hy; simpl in Hrun.
  - injection Hrun as <-. inversion Hy.
  - apply bind_Ok in Hrun as (y0 & Hy0 & Hrun).
    apply bind_Ok in Hrun as (ys0 & Hys0 & Hrun). injection Hrun as <-.
    apply elem_of_cons in Hy as [->|Hy].
    + exists x. split; [left | done].
    + destruct (IH _ Hys0 Hy) as (x' & Hx' & Hfx'). exists x'. split; [by right | done].
Qed.

Lemma for_each_Raise {A B} (f : A -> result B) xs x e :
  x ∈ xs -> f x = Raise e ->
  (forall x' e', f x' = Raise e' -> e' = e) ->
  for_each f xs = Raise e.
Proof.
  intros Hx Hfx Hsame. induction xs as [|x0 xs IH]; [inversion Hx|].
  simpl. destruct (f x0) as [y|e0] eqn:Hf0.
  - simpl. apply elem_of_cons in Hx as [->|Hx]; [congruence|].
    rewrite (IH Hx). done.
  - simpl. f_equal. by apply Hsame with x0.
Qed.

(** ** Step 2: the trimmed metadata *)

Lemma trimmed_metadata_fold (md acc : gmap string scalar) important key :
  foldl (fun acc key => match md !! key with
                        | Some v => <[key := v]> acc
                        | None => acc
                        end) acc important !! key
  = match (if decide (key ∈ important) then md !! key else None) with
    | Some v => Some v
    | None => acc !! key
    end.
Proof.
  revert acc. induction important as [|k ks IH]; intros acc; simpl.
  - done.
  - rewrite IH. destruct (decide (key ∈ ks)) as [Hin|Hnin].
    + rewrite (decide_True (P := key ∈ k :: ks)) by (by right).
      destruct (md !! key) eqn:Hk; [done|].
      destruct (md !! k) eqn:Hk'; [|done].
      rewrite lookup_insert_ne; [done | congruence].
    + destruct (decide (key = k)) as [->|Hne].
      * rewrite (decide_True (P := k ∈ k :: ks)) by left.
        destruct (md !! k); [by rewrite lookup_insert_eq | done].
      * rewrite (decide_False (P := key ∈ k :: ks)) by (rewrite elem_of_cons; tauto).
        destruct (md !! k); [by rewrite lookup_insert_ne | done].
Qed.

(** A key of the trimmed metadata is a key of the allow-list, with the
    parent's value. *)
Lemma trimmed_metadata_lookup important (md : gmap string scalar) key :
  trimmed_metadata important md !! key
  = if decide (key ∈ important) then md !! key else None.
Proof.
  unfold trimmed_metadata. rewrite trimmed_metadata_fold.
  destruct (decide (key ∈ important)); [destruct (md !! key)|]; done.
Qed.

Lemma trimmed_metadata_filter important (md : gmap string scalar) :
  trimmed_metadata important md = filter (fun kv => kv.1 ∈ important) md.
Proof.
  apply map_eq. intros key. rewrite trimmed_metadata_lookup.
  destruct (decide (key ∈ important)) as [Hin|Hnin].
  - destruct (md !! key) as [v|] eqn:Hk.
    + symmetry. by apply map_lookup_filter_Some.
    + symmetry. apply map_lookup_filter_None. left. done.
  - symmetry. apply map_lookup_filter_None. right. intros v _. done.
Qed.

Lemma trimmed_pdf_data_elem important pdf_data d :
  d ∈ trimmed_pdf_data important pdf_data ->
  exists parent, parent ∈ pdf_data
    /\ page_content d = page_content parent
    /\ metadata d = trimmed_metadata important (metadata parent).
Proof.
  unfold trimmed_pdf_data. intros Hd. apply list_elem_of_fmap in Hd as (parent & -> & Hp).
  exists parent. done.
Qed.

(** ** Step 3: what [split_documents] does with metadata *)

Lemma split_documents_elem split documents chunks chunk :
  split_documents split documents = Ok chunks ->
  chunk ∈ chunks ->
  exists parent texts, parent ∈ documents
    /\ split (page_content parent) = Ok texts
    /\ page_content chunk ∈ texts
    /\ metadata chunk = metadata parent.
Proof.
  unfold split_documents. intros Hrun Hc.
  apply bind_Ok in Hrun as (groups & Hgroups & Hrun). injection Hrun as <-.
  apply list_elem_of_In, in_concat in Hc as (group & Hgroup & Hc).
  apply list_elem_of_In in Hgroup, Hc.
  destruct (for_each_Ok_elem _ _ _ _ Hgroups Hgroup) as (parent & Hparent & Hsplit).
  apply bind_Ok in Hsplit as (texts & Htexts & Hsplit). injection Hsplit as <-.
  apply list_elem_of_fmap in Hc as (text & -> & Htext).
  exists parent, texts. done.
Qed.

Lemma split_text_Ok documents co cs sep chunks :
  split_text documents co cs sep = Ok chunks ->
  co <= cs
  /\ split_documents (splitter_split_text (mkTextSplitter cs co sep)) documents
     = Ok chunks.
Proof.
  unfold split_text, CharacterTextSplitter. intros Hrun.
  destruct (cs <? co) eqn:Hlt; [discriminate|]. simpl in Hrun.
  split; [lia | done].
Qed.

(** C8: every chunk split from the trimmed pages carries the metadata of
    its parent page restricted to the keys of the allow-list, each kept
    value being the parent's; the trimming comes before the chunking, so
    all chunks of one parent carry the same trimmed metadata. *)
Theorem chunks_carry_trimmed_metadata important pdf_data co cs sep chunks chunk :
  split_text (trimmed_pdf_data important pdf_data) co cs sep = Ok chunks ->
  chunk ∈ chunks ->
  exists parent texts,
    parent ∈ pdf_data
    /\ splitter_split_text (mkTextSplitter cs co sep) (page_content parent) = Ok texts
    /\ page_content chunk ∈ texts
    /\ metadata chunk = filter (fun kv => kv.1 ∈ important) (metadata parent)
    /\ forall key,
         metadata chunk !! key
         = if decide (key ∈ important) then metadata parent !! key else None.
Proof.
  intros Hrun Hchunk. apply split_text_Ok in Hrun as [_ Hrun].
  destruct (split_documents_elem _ _ _ _ Hrun Hchunk)
    as (trimmed & texts & Htrimmed & Hsplit & Htext & Hmd).
  apply trimmed_pdf_data_elem in Htrimmed as (parent & Hparent & Hcontent & Htrim).
  exists parent, texts. rewrite <- Hcontent. repeat split; try done.
  - rewrite Hmd, Htrim. apply trimmed_metadata_filter.
  - intros key. rewrite Hmd, Htrim. apply trimmed_metadata_lookup.
Qed.

Lemma chunks_carry_trimmed_metadata_witness :
  exists parent texts,
    parent ∈ [sample_page]
    /\ splitter_split_text (mkTextSplitter 5 2 " ") (page_content parent) = Ok texts
    /\ page_content (mkDocument "bb cc" (trimmed_metadata important_metadata (metadata sample_page))) ∈ texts
    /\ metadata (mkDocument "bb cc" (trimmed_metadata important_metadata (metadata sample_page)))
       = filter (fun kv => kv.1 ∈ important_metadata) (metadata parent)
    /\ forall key,
         metadata (mkDocument "bb cc" (trimmed_metadata important_metadata (metadata sample_page))) !! key
         = if decide (key ∈ important_metadata) then metadata parent !! key else None.
Proof.
  apply (chunks_carry_trimmed_metadata important_metadata [sample_page] 2 5 " "
           (map (fun text => mkDocument text (trimmed_metadata important_metadata (metadata sample_page)))
                ["aa bb"; "bb cc"; "cc dd"])).
  - vm_compute. reflexivity.
  - simpl. right. left.
Defined.

Example trimmed_sample_page :
  trimmed_metadata important_metadata (metadata sample_page)
  = <["title" := PyStr ""]> (<["page" := PyInt 0]> ∅).
Proof. vm_compute. reflexivity. Qed.

(** ** Strings *)

Lemma append_nil_l (b : string) : "" +:+ b = b.
Proof. reflexivity. Qed.

Lemma append_cons (c : ascii) (a b : string) :
  String c a +:+ b = String c (a +:+ b).
Proof. reflexivity. Qed.

Lemma length_append (a b : string) :
  String.length (a +:+ b) = (String.length a + String.length b)%nat.
Proof.
  induction a as [|c a IH]; [done|].
  rewrite append_cons. simpl. by rewrite IH.
Qed.

Lemma substring_append_prefix (a b : string) :
  String.substring 0 (String.length a) (a +:+ b) = a.
Proof.
  induction a as [|c a IH].
  - rewrite append_nil_l. by destruct b.
  - rewrite append_cons. simpl. by rewrite IH.
Qed.

Lemma substring_append_skip (a b : string) n m :
  String.substring (String.length a + n) m (a +:+ b) = String.substring n m b.
Proof. induction a as [|c a IH]; [done|]. rewrite append_cons. simpl. done. Qed.

Lemma get_append_skip (a b : string) n :
  String.get (String.length a + n) (a +:+ b) = String.get n b.
Proof. induction a as [|c a IH]; [done|]. rewrite append_cons. simpl. done. Qed.

Lemma substring_whole (a : string) :
  String.substring 0 (String.length a) a = a.
Proof. induction a as [|c a IH]; simpl; [done | by rewrite IH]. Qed.

Lemma append_assoc (a b c : string) : (a +:+ b) +:+ c = a +:+ (b +:+ c).
Proof.
  induction a as [|x a IH]; [done|]. rewrite !append_cons. by f_equal.
Qed.

Lemma append_empty_r (a : string) : a +:+ "" = a.
Proof. induction a as [|x a IH]; [done|]. rewrite append_cons. by f_equal. Qed.

Lemma str_join_cons sep p q rest :
  str_join sep (p :: q :: rest) = p +:+ sep +:+ str_join sep (q :: rest).
Proof. done. Qed.

(** ** Steps 7 and 8: the instruction *)

(** Where the four parts of [a +:+ b +:+ c +:+ d] lie. *)
Lemma template_layout (a b c d : string) :
  let p := a +:+ b +:+ c +:+ d in
  let la := String.length a in
  let lb := String.length b in
  let lc := String.length c in
  let ld := String.length d in
  String.substring 0 la p = a
  /\ String.substring la lb p = b
  /\ String.substring (la + lb) lc p = c
  /\ String.substring (la + lb + lc) ld p = d
  /\ String.length p = (la + lb + lc + ld)%nat.
Proof.
  intros p la lb lc ld. unfold p. repeat split.
  - apply substring_append_prefix.
  - rewrite <- (Nat.add_0_r la). unfold la. rewrite substring_append_skip.
    apply substring_append_prefix.
  - unfold la. rewrite substring_append_skip.
    rewrite <- (Nat.add_0_r lb). unfold lb. rewrite substring_append_skip.
    apply substring_append_prefix.
  - unfold la. rewrite <- !Nat.add_assoc, substring_append_skip.
    unfold lb. rewrite substring_append_skip.
    rewrite <- (Nat.add_0_r lc). unfold lc. rewrite substring_append_skip.
    apply substring_whole.
  - rewrite !length_append. unfold la, lb, lc, ld. lia.
Qed.

(** C9: the instruction is "Context: ", the context, then a space, a
    newline and "Question: ", then the query, with nothing else; it is sent
    to the model in one request as its only message, and the answer is the
    model's response to that request, as it is. *)
Theorem instructions_template client llm_model context query :
  let prompt := instructions context query in
  let n := String.length context in
  let middle := String " " (String (ascii_of_nat 10) "Question: ") in
  let request := mkRequest llm_model [mkMessage "user" prompt] in
  prompt = "Context: " +:+ context +:+ middle +:+ query
  /\ String.substring 0 9 prompt = "Context: "
  /\ String.substring 9 n prompt = context
  /\ String.substring (9 + n) 12 prompt = middle
  /\ String.substring (9 + n + 12) (String.length query) prompt = query
  /\ String.length prompt = (9 + n + 12 + String.length query)%nat
  /\ (answer client llm_model context query).1 = respond client request
  /\ requests (answer client llm_model context query).2 = requests client ++ [request].
Proof.
  intros prompt n middle request.
  assert (Hprompt : prompt = "Context: " +:+ context +:+ middle +:+ query)
    by reflexivity.
  split; [exact Hprompt|]. rewrite Hprompt.
  destruct (template_layout "Context: " context middle query)
    as (H1 & H2 & H3 & H4 & H5).
  repeat split; assumption.
Qed.

Example instructions_demo :
  instructions "ctx" "why?"
  = "Context: ctx " +:+ newline +:+ "Question: why?".
Proof. reflexivity. Qed.

(** ** Step 3: the merge loop *)

Lemma len_nonneg s : 0 <= len s.
Proof. unfold len. lia. Qed.

Lemma len_append a b : len (a +:+ b) = len a + len b.
Proof. unfold len. rewrite length_append. lia. Qed.

Lemma len_pos s : s <> "" -> 0 < len s.
Proof. destruct s; [done|]. unfold len. simpl. lia. Qed.

Lemma str_join_snoc sep group d :
  str_join sep (group ++ [d])
  = match group with
    | [] => d
    | _ => str_join sep group +:+ sep +:+ d
    end.
Proof.
  induction group as [|p [|q rest] IH]; [done | done |].
  change ((p :: q :: rest) ++ [d]) with (p :: (q :: rest) ++ [d]).
  change (str_join sep (p :: (q :: rest) ++ [d]))
    with (p +:+ sep +:+ str_join sep ((q :: rest) ++ [d])).
  rewrite IH. rewrite str_join_cons. by rewrite !append_assoc.
Qed.

Lemma len_join_cons sep p rest :
  len (str_join sep (p :: rest))
  = len p + (if rest is [] then 0 else len sep) + len (str_join sep rest).
Proof.
  destruct rest as [|q rest]; simpl str_join.
  - unfold len at 3. simpl. lia.
  - rewrite !len_append. lia.
Qed.

Lemma len_join_snoc sep group d :
  len (str_join sep (group ++ [d]))
  = len (str_join sep group) + len d + (if group is [] then 0 else len sep).
Proof.
  rewrite str_join_snoc. destruct group as [|p rest].
  - unfold len at 2. simpl. lia.
  - rewrite !len_append. lia.
Qed.

Lemma len_join_pos sep group :
  group <> [] -> Forall (fun p => p <> "") group -> 0 < len (str_join sep group).
Proof.
  intros Hne Hall. destruct group as [|p rest]; [done|].
  rewrite len_join_cons. inversion Hall as [|? ? Hp _]; subst.
  pose proof (len_pos p Hp). pose proof (len_nonneg (str_join sep rest)).
  pose proof (len_nonneg sep). destruct rest; lia.
Qed.

(** What the popping loop returns is a suffix of the document that leaves
    room for the next piece, or nothing. *)
Lemma pop_front_Ok sp sep len_d cur total cur' total' :
  total = len (str_join sep cur) ->
  pop_front sp (len sep) len_d cur total = Ok (cur', total') ->
  total' = len (str_join sep cur')
  /\ cur' `suffix_of` cur
  /\ (total' + len_d + (if cur' is [] then 0 else len sep) <= chunk_size sp
      \/ total' <= 0).
Proof.
  revert total. induction cur as [|p rest IH]; intros total Htotal Hrun.
  - simpl in Hrun.
    destruct ((chunk_overlap sp <? total)
              || ((chunk_size sp <? total + len_d + 0) && (0 <? total)))
      eqn:Hcond; [discriminate|].
    injection Hrun as <- <-. apply orb_false_iff in Hcond as [_ Hroom].
    split; [done|]. split; [done|].
    apply andb_false_iff in Hroom as [Hroom|Hroom]; [left | right]; lia.
  - simpl pop_front in Hrun.
    destruct ((chunk_overlap sp <? total)
              || ((chunk_size sp <? total + len_d + len sep) && (0 <? total)))
      eqn:Hcond.
    + destruct (IH (total - (len p + (if rest is [] then 0 else len sep))))
        as (Htotal' & Hsuffix & Hroom); [|done|].
      { rewrite Htotal, len_join_cons. lia. }
      split; [done|]. split; [by apply suffix_cons_r | done].
    + injection Hrun as <- <-. apply orb_false_iff in Hcond as [_ Hroom].
      split; [done|]. split; [done|].
      apply andb_false_iff in Hroom as [Hroom|Hroom]; [left | right]; lia.
Qed.

(** With an overlap that is not negative the popping loop never reads
    past the end of the document. *)
Lemma pop_front_total sp sep len_d cur total :
  0 <= chunk_overlap sp ->
  total = len (str_join sep cur) ->
  exists r, pop_front sp (len sep) len_d cur total = Ok r.
Proof.
  intros Hco. revert total. induction cur as [|p rest IH]; intros total Htotal.
  - change (len (str_join sep [])) with 0 in Htotal. subst total. simpl.
    replace (chunk_overlap sp <? 0) with false by lia.
    rewrite andb_false_r. simpl. by eexists.
  - simpl pop_front.
    destruct ((chunk_overlap sp <? total)
              || ((chunk_size sp <? total + len_d + len sep) && (0 <? total))).
    + apply IH. rewrite Htotal, len_join_cons. lia.
    + by eexists.
Qed.

(** ** Stitched groups *)

Lemma last_cons_default {A} (x : A) (l : list A) (d : A) :
  default d (last (x :: l)) = default x (last l).
Proof. rewrite last_cons. by destruct (last l). Qed.

Lemma stitched_snoc prev groups covered overlap fresh :
  stitched prev groups covered ->
  overlap `suffix_of` default prev (last groups) ->
  stitched prev (groups ++ [overlap ++ fresh]) (covered ++ fresh).
Proof.
  induction 1 as [prev|prev ov fr groups pieces Hov Hrest IH]; intros Hsuffix.
  - simpl in *. rewrite <- (app_nil_r fresh) at 2.
    constructor; [done | constructor].
  - rewrite last_cons_default in Hsuffix.
    rewrite <- app_assoc. simpl. constructor; [done | by apply IH].
Qed.

Lemma stitched_elem prev groups pieces group p :
  stitched prev groups pieces -> group ∈ groups -> p ∈ group ->
  p ∈ prev \/ p ∈ pieces.
Proof.
  induction 1 as [prev|prev ov fr groups pieces Hov Hrest IH]; intros Hg Hp.
  - inversion Hg.
  - apply elem_of_cons in Hg as [->|Hg].
    + apply elem_of_app in Hp as [Hp|Hp].
      * left. destruct Hov as [k ->]. apply elem_of_app. by right.
      * right. apply elem_of_app. by left.
    + destruct (IH Hg Hp) as [Hin|Hin].
      * apply elem_of_app in Hin as [Hin|Hin].
        -- left. destruct Hov as [k ->]. apply elem_of_app. by right.
        -- right. apply elem_of_app. by left.
      * right. apply elem_of_app. by right.
Qed.

(** ** The merge loop keeps its invariant *)

Lemma fits_singleton sp sep d : fits sp sep [d].
Proof.
  destruct (Z_le_gt_dec (len d) (chunk_size sp)) as [Hle|Hgt].
  - right. left. done.
  - right. right. exists d. split; [done | lia].
Qed.

Lemma merge_step_inv sp sep processed st d st' :
  d <> "" ->
  merge_inv sp sep processed st ->
  merge_step_groups sp sep st d = Ok st' ->
  merge_inv sp sep (processed ++ [d]) st'.
Proof.
  intros Hd. destruct st as [[groups cur] total].
  intros (Htotal & Hnonempty & Hgroups & Hcur & overlap & fresh & covered
          & Hsplit & Hsuffix & Hstitched & Hprocessed) Hstep.
  unfold merge_step_groups in Hstep.
  destruct (chunk_size sp <? total + len d + (if cur is [] then 0 else len sep))
    eqn:Hfull.
  - destruct cur as [|p rest].
    + (* the first piece *)
      injection Hstep as <-. unfold merge_inv.
      change (len (str_join sep [])) with 0 in Htotal. subst total.
      split; [simpl; lia|]. split; [by apply Forall_singleton|].
      split; [done|]. split; [apply fits_singleton|].
      apply eq_sym, app_eq_nil in Hsplit as [-> ->].
      exists [], [d], covered. rewrite app_nil_r in Hprocessed. subst covered.
      repeat split; (done || apply suffix_nil).
    + (* the current document is emitted *)
      apply bind_Ok in Hstep as ([cur' total'] & Hpop & Hstep).
      injection Hstep as <-.
      destruct (pop_front_Ok sp sep (len d) (p :: rest) total cur' total' Htotal Hpop)
        as (-> & Hsuf & Hroom).
      unfold merge_inv.
      assert (Hnonempty' : Forall (fun p => p <> "") cur').
      { destruct Hsuf as [k Hk]. rewrite Hk in Hnonempty.
        by apply Forall_app in Hnonempty as [_ ?]. }
      split; [by rewrite len_join_snoc; lia|].
      split; [apply Forall_app; split; [done | by apply Forall_singleton]|].
      split; [apply Forall_app; split; [done | by apply Forall_singleton]|].
      split.
      * destruct cur' as [|q cur'']; [apply fits_singleton|].
        right. left. rewrite len_join_snoc.
        destruct Hroom as [Hroom|Hzero]; [lia|].
        pose proof (len_join_pos sep (q :: cur'') ltac:(done) Hnonempty'). lia.
      * exists cur', [d], (covered ++ fresh). repeat split.
        -- by rewrite last_snoc.
        -- rewrite Hsplit. by apply stitched_snoc.
        -- by rewrite Hprocessed.
  - (* the piece joins the current document *)
    injection Hstep as <-. unfold merge_inv.
    split; [by rewrite len_join_snoc; lia|].
    split; [apply Forall_app; split; [done | by apply Forall_singleton]|].
    split; [done|]. split.
    + right. left. rewrite len_join_snoc. lia.
    + exists overlap, (fresh ++ [d]), covered. rewrite Hsplit, Hprocessed.
      rewrite <- !app_assoc. done.
Qed.

Lemma merge_step_total sp sep processed st d :
  0 <= chunk_overlap sp ->
  merge_inv sp sep processed st ->
  exists st', merge_step_groups sp sep st d = Ok st'.
Proof.
  intros Hco. destruct st as [[groups cur] total]. intros (Htotal & _).
  unfold merge_step_groups.
  destruct (chunk_size sp <? total + len d + (if cur is [] then 0 else len sep));
    [|by eexists].
  destruct cur as [|p rest]; [by eexists|].
  destruct (pop_front_total sp sep (len d) (p :: rest) total Hco Htotal)
    as [[cur' total'] ->].
  by eexists.
Qed.

Lemma merge_loop_inv sp sep processed st splits st' :
  Forall (fun p => p <> "") splits ->
  merge_inv sp sep processed st ->
  merge_loop_groups sp sep st splits = Ok st' ->
  merge_inv sp sep (processed ++ splits) st'.
Proof.
  intros Hsplits. revert processed st.
  induction Hsplits as [|d splits Hd Hsplits IH]; intros processed st Hinv Hloop.
  - injection Hloop as <-. by rewrite app_nil_r.
  - simpl in Hloop. apply bind_Ok in Hloop as (st1 & Hstep & Hloop).
    rewrite (app_assoc processed [d] splits : processed ++ d :: splits = _).
    apply (IH _ st1); [|done]. by apply merge_step_inv with st.
Qed.

Lemma merge_loop_total sp sep processed st splits :
  0 <= chunk_overlap sp ->
  Forall (fun p => p <> "") splits ->
  merge_inv sp sep processed st ->
  exists st', merge_loop_groups sp sep st splits = Ok st'.
Proof.
  intros Hco Hsplits. revert processed st.
  induction Hsplits as [|d splits Hd Hsplits IH]; intros processed st Hinv.
  - by exists st.
  - destruct (merge_step_total sp sep processed st d Hco Hinv) as [st1 Hstep].
    simpl. rewrite Hstep. apply (IH (processed ++ [d])).
    by apply merge_step_inv with st.
Qed.

Lemma merge_inv_init sp sep : merge_inv sp sep [] ([], [], 0).
Proof.
  unfold merge_inv. repeat split; try done; [by left|].
  exists [], [], []. repeat split; try done. constructor.
Qed.

(** Every group the merge returns fits, and the groups are stitched from
    the pieces. *)
Lemma merge_groups_spec sp sep splits groups :
  Forall (fun p => p <> "") splits ->
  merge_groups sp splits sep = Ok groups ->
  Forall (fits sp sep) groups /\ stitched [] groups splits.
Proof.
  intros Hsplits Hrun. unfold merge_groups in Hrun.
  apply bind_Ok in Hrun as ([[groups' cur] total] & Hloop & Hrun).
  injection Hrun as <-.
  pose proof (merge_loop_inv sp sep [] _ splits _ Hsplits (merge_inv_init sp sep) Hloop)
    as (_ & _ & Hgroups & Hcur & overlap & fresh & covered
        & -> & Hsuffix & Hstitched & Hprocessed).
  split.
  - apply Forall_app. split; [done | by apply Forall_singleton].
  - simpl in Hprocessed. rewrite Hprocessed. by apply stitched_snoc.
Qed.

(** For an overlap that is not negative the merge ends without an error. *)
Lemma merge_groups_total sp sep splits :
  0 <= chunk_overlap sp ->
  Forall (fun p => p <> "") splits ->
  exists groups, merge_groups sp splits sep = Ok groups.
Proof.
  intros Hco Hsplits.
  destruct (merge_loop_total sp sep [] _ splits Hco Hsplits (merge_inv_init sp sep))
    as ([[groups cur] total] & Hloop).
  unfold merge_groups. rewrite Hloop. by eexists.
Qed.

(** The loop of the library and the loop with the ghost state run in step. *)

Lemma omap_snoc {A B} (f : A -> option B) l x :
  omap f (l ++ [x]) = match f x with Some y => omap f l ++ [y] | None => omap f l end.
Proof. rewrite omap_app. simpl. destruct (f x); [done | by rewrite app_nil_r]. Qed.

Lemma merge_step_sim sp sep st d :
  merge_step sp sep (joined sep st) d = joined sep <$> merge_step_groups sp sep st d.
Proof.
  destruct st as [[groups cur] total]. unfold merge_step, merge_step_groups, joined, join_groups.
  simpl fst. simpl snd.
  destruct (chunk_size sp <? total + len d + (if cur is [] then 0 else len sep)); [|done].
  destruct cur as [|p rest]; [done|].
  destruct (pop_front sp (len sep) (len d) (p :: rest) total) as [[cur' total']|e]; [|done].
  change (Ok ?x ≫= ?f) with (f x). cbv beta iota.
  change (?f <$> Ok ?x) with (Ok (f x)). cbv beta. simpl fst. simpl snd.
  by rewrite omap_snoc.
Qed.

Lemma merge_loop_sim sp sep st splits :
  merge_loop sp sep (joined sep st) splits
  = joined sep <$> merge_loop_groups sp sep st splits.
Proof.
  revert st. induction splits as [|d splits IH]; intros st; [done|].
  change (merge_loop sp sep (joined sep st) (d :: splits))
    with (merge_step sp sep (joined sep st) d
            ≫= fun st' => merge_loop sp sep st' splits).
  change (merge_loop_groups sp sep st (d :: splits))
    with (merge_step_groups sp sep st d
            ≫= fun st' => merge_loop_groups sp sep st' splits).
  rewrite merge_step_sim.
  destruct (merge_step_groups sp sep st d) as [st'|e]; [|done].
  apply IH.
Qed.

Lemma merge_splits_groups sp sep splits :
  merge_splits sp splits sep = join_groups sep <$> merge_groups sp splits sep.
Proof.
  unfold merge_splits, merge_groups.
  change ([], [], 0) with (joined sep ([], [], 0)) at 1.
  rewrite merge_loop_sim.
  destruct (merge_loop_groups sp sep ([], [], 0) splits) as [[[groups cur] total]|e]; [|done].
  change (joined sep <$> Ok ?x) with (Ok (joined sep x)). unfold joined, join_groups.
  change (Ok ?x ≫= ?f) with (f x). cbv beta iota. simpl fst. simpl snd.
  change (?f <$> Ok ?x) with (Ok (f x)). cbv beta. by rewrite omap_snoc.
Qed.

(** ** Splitting on the separator *)

Lemma prefix_append (sep b : string) : String.prefix sep (sep +:+ b) = true.
Proof.
  induction sep as [|c sep IH]; [by destruct b|].
  rewrite append_cons. simpl. destruct (ascii_dec c c); [exact IH | done].
Qed.

Lemma prefix_inv (sep s : string) :
  String.prefix sep s = true -> exists b, s = sep +:+ b.
Proof.
  revert s. induction sep as [|c sep IH]; intros s Hp.
  - by exists s.
  - destruct s as [|c' s]; [discriminate|]. simpl in Hp.
    destruct (ascii_dec c c') as [->|]; [|discriminate].
    destruct (IH s Hp) as [b ->]. by exists b.
Qed.

Lemma append_inj_length (a1 a2 x y : string) :
  a1 +:+ x = a2 +:+ y -> String.length a1 = String.length a2 ->
  a1 = a2 /\ x = y.
Proof.
  revert a2. induction a1 as [|c a1 IH]; intros [|c' a2] Heq Hlen; try discriminate.
  - done.
  - rewrite !append_cons in Heq. injection Heq as -> Heq. simpl in Hlen.
    destruct (IH a2 Heq) as [-> ->]; [lia | done].
Qed.

Lemma string_of_list_ascii_snoc (l : list ascii) (c : ascii) :
  String.string_of_list_ascii (l ++ [c])
  = String.string_of_list_ascii l +:+ String c "".
Proof. induction l as [|x l IH]; [done|]. simpl. rewrite IH. done. Qed.

Lemma piece_of_cons c piece :
  piece_of (c :: piece) = piece_of piece +:+ String c "".
Proof. unfold piece_of. simpl. apply string_of_list_ascii_snoc. Qed.

Lemma split_scan_nonempty sep k piece s : split_scan sep k piece s <> [].
Proof.
  revert k piece. induction s as [|c s IH]; intros k piece; [done|].
  cbn [split_scan]. destruct k; [|apply IH].
  destruct (String.prefix sep (String c s)); [done | apply IH].
Qed.

Lemma str_join_cons_nonempty sep p rest :
  rest <> [] -> str_join sep (p :: rest) = p +:+ sep +:+ str_join sep rest.
Proof. by destruct rest. Qed.

(** Joining the pieces of a scan by the separator gives back what was
    scanned, after the [k] characters still to pass. *)
Lemma split_scan_join c0 t0 s k piece pre rest :
  s = pre +:+ rest -> String.length pre = k ->
  str_join (String c0 t0) (split_scan (String c0 t0) k piece s)
  = piece_of piece +:+ rest.
Proof.
  set (sep := String c0 t0).
  revert k piece pre rest. induction s as [|c s IH]; intros k piece pre rest Hs Hk.
  - destruct pre; [|discriminate]. rewrite append_nil_l in Hs. subst rest.
    cbn [split_scan str_join]. fold (piece_of piece). by rewrite append_empty_r.
  - destruct k as [|k].
    + destruct pre; [|discriminate]. rewrite append_nil_l in Hs. subst rest.
      cbn [split_scan]. destruct (String.prefix sep (String c s)) eqn:Hp.
      * apply prefix_inv in Hp as [b Hb]. unfold sep in Hb.
        rewrite append_cons in Hb. injection Hb as -> ->.
        rewrite str_join_cons_nonempty by apply split_scan_nonempty.
        rewrite (IH _ [] t0 b); [|done|simpl; lia].
        unfold piece_of at 2. simpl. by rewrite append_nil_l.
      * rewrite (IH 0%nat (c :: piece) "" s); [|done|done].
        rewrite piece_of_cons, append_assoc. done.
    + destruct pre as [|a pre]; [discriminate|]. rewrite append_cons in Hs.
      injection Hs as -> ->. simpl in Hk. cbn [split_scan].
      apply (IH k piece pre rest); [done | lia].
Qed.

Lemma characters_join (s : string) : str_join "" (characters s) = s.
Proof.
  induction s as [|c s IH]; [done|]. simpl characters.
  destruct (characters s) as [|x l] eqn:Hc.
  - destruct s; [done | discriminate].
  - rewrite str_join_cons, IH. done.
Qed.

(** [separator.join(text.split(separator)) == text] *)
Lemma str_split_join sep text : str_join sep (str_split sep text) = text.
Proof.
  destruct sep as [|c0 t0]; [apply characters_join|].
  unfold str_split. by rewrite (split_scan_join c0 t0 text 0 [] "" text).
Qed.

(** No piece of a scan holds the separator: an occurrence would have been
    matched when the scan passed its first character. *)
Lemma split_scan_no_separator c0 t0 s k piece pre rest p :
  s = pre +:+ rest -> String.length pre = k ->
  (forall a b, piece_of piece +:+ rest = a +:+ String c0 t0 +:+ b ->
               (String.length (piece_of piece) <= String.length a)%nat) ->
  p ∈ split_scan (String c0 t0) k piece s ->
  ~ occurs (String c0 t0) p.
Proof.
  set (sep := String c0 t0).
  revert k piece pre rest. induction s as [|c s IH]; intros k piece pre rest Hs Hk Hpre Hp.
  - destruct pre; [|discriminate]. rewrite append_nil_l in Hs. subst rest.
    cbn [split_scan] in Hp. apply list_elem_of_singleton in Hp as ->.
    fold (piece_of piece). intros (a & b & Hocc).
    specialize (Hpre a b). rewrite append_empty_r in Hpre.
    specialize (Hpre Hocc). rewrite Hocc, !length_append in Hpre.
    unfold sep in Hpre. simpl in Hpre. lia.
  - destruct k as [|k].
    + destruct pre; [|discriminate]. rewrite append_nil_l in Hs. subst rest.
      cbn [split_scan] in Hp. destruct (String.prefix sep (String c s)) eqn:Hpfx.
      * apply elem_of_cons in Hp as [->|Hp].
        -- fold (piece_of piece). intros (a & b & Hocc).
           specialize (Hpre a (b +:+ String c s)).
           rewrite Hocc, !append_assoc in Hpre. specialize (Hpre eq_refl).
           rewrite !length_append in Hpre. unfold sep in Hpre. simpl in Hpre. lia.
        -- apply prefix_inv in Hpfx as [b Hb]. unfold sep in Hb.
           rewrite append_cons in Hb. injection Hb as -> ->.
           apply (IH (String.length sep - 1)%nat [] t0 b);
             [done | unfold sep; simpl; lia | | done].
           intros a b' _. unfold piece_of. simpl. lia.
      * apply (IH 0%nat (c :: piece) "" s); [done | done | | done].
        intros a b Hocc. rewrite piece_of_cons, append_assoc in Hocc.
        change (String c "" +:+ s) with (String c s) in Hocc.
        pose proof (Hpre a b Hocc) as Hle.
        rewrite piece_of_cons, length_append. simpl.
        destruct (decide (String.length (piece_of piece) = String.length a)) as [Heq|Hne]; [|lia].
        destruct (append_inj_length _ _ _ _ Hocc Heq) as [_ Hs].
        rewrite Hs, prefix_append in Hpfx. discriminate.
    + destruct pre as [|a pre]; [discriminate|]. rewrite append_cons in Hs.
      injection Hs as -> ->. simpl in Hk. cbn [split_scan] in Hp.
      apply (IH k piece pre rest); [done | lia | done | done].
Qed.

Lemma split_pieces_nonempty sep text : Forall (fun p => p <> "") (split_pieces sep text).
Proof.
  apply Forall_forall. intros p Hp. unfold split_pieces in Hp.
  by apply list_elem_of_filter in Hp as [? _].
Qed.

Lemma split_pieces_no_separator sep text p :
  sep <> "" -> p ∈ split_pieces sep text -> ~ occurs sep p.
Proof.
  intros Hsep Hp. unfold split_pieces in Hp.
  apply list_elem_of_filter in Hp as [_ Hp].
  destruct sep as [|c0 t0]; [done|]. unfold str_split in Hp.
  apply (split_scan_no_separator c0 t0 text 0 [] "" text p); try done.
  intros a b _. unfold piece_of. simpl. lia.
Qed.

(** ** Stripping *)

Lemma length_lstrip s : (String.length (lstrip s) <= String.length s)%nat.
Proof. induction s as [|c s IH]; simpl; [done|]. destruct (is_space c); simpl; lia. Qed.

Lemma length_rstrip s : (String.length (rstrip s) <= String.length s)%nat.
Proof.
  induction s as [|c s IH]; simpl; [done|].
  destruct (rstrip s); [destruct (is_space c)|]; simpl in *; lia.
Qed.

Lemma len_strip s : len (strip s) <= len s.
Proof.
  unfold len, strip. pose proof (length_lstrip (rstrip s)).
  pose proof (length_rstrip s). lia.
Qed.

Lemma join_docs_Some sep group text :
  join_docs sep group = Some text ->
  text = strip (str_join sep group) /\ group <> [].
Proof.
  unfold join_docs. intros Hjoin. split.
  - destruct (strip (str_join sep group)); [discriminate | congruence].
  - intros ->. discriminate.
Qed.

(** ** Step 3: what the chunks are *)

Lemma splitter_split_text_groups sp text texts :
  splitter_split_text sp text = Ok texts ->
  exists groups,
    texts = join_groups (separator sp) groups
    /\ Forall (fits sp (separator sp)) groups
    /\ stitched [] groups (split_pieces (separator sp) text).
Proof.
  unfold splitter_split_text. rewrite merge_splits_groups. intros Hrun.
  destruct (merge_groups sp (split_pieces (separator sp) text) (separator sp))
    as [groups|e] eqn:Hgroups; [|discriminate].
  injection Hrun as <-. exists groups. split; [done|].
  apply merge_groups_spec; [apply split_pieces_nonempty | done].
Qed.

Lemma splitter_split_text_total sp text :
  0 <= chunk_overlap sp -> exists texts, splitter_split_text sp text = Ok texts.
Proof.
  intros Hco.
  destruct (merge_groups_total sp (separator sp) (split_pieces (separator sp) text)
              Hco (split_pieces_nonempty _ _)) as [groups Hrun].
  unfold splitter_split_text. rewrite merge_splits_groups, Hrun. by eexists.
Qed.

Lemma group_chunk_bound sp sep groups pieces text :
  Forall (fits sp sep) groups ->
  stitched [] groups pieces ->
  text ∈ join_groups sep groups ->
  len text <= chunk_size sp
  \/ exists piece, piece ∈ pieces /\ chunk_size sp < len piece /\ text = strip piece.
Proof.
  intros Hfits Hst Htext. unfold join_groups in Htext.
  apply list_elem_of_omap in Htext as (group & Hgroup & Hjoin).
  apply join_docs_Some in Hjoin as [-> Hne].
  rewrite Forall_forall in Hfits.
  destruct (Hfits group Hgroup) as [->|[Hle|(piece & -> & Hlong)]]; [done| |].
  - left. pose proof (len_strip (str_join sep group)). lia.
  - right. exists piece. repeat split; [|done].
    destruct (stitched_elem [] groups pieces [piece] piece Hst Hgroup) as [Hin|Hin];
      [left | inversion Hin | done].
Qed.

Lemma for_each_total {A B} (f : A -> result B) xs :
  (forall x, x ∈ xs -> exists y, f x = Ok y) -> exists ys, for_each f xs = Ok ys.
Proof.
  induction xs as [|x xs IH]; intros Hall; [by exists []|].
  destruct (Hall x) as [y Hy]; [left|].
  destruct IH as [ys Hys]; [intros x' Hx'; apply Hall; by right|].
  exists (y :: ys). simpl. rewrite Hy. simpl. rewrite Hys. done.
Qed.

Lemma split_documents_total split documents :
  (forall text, exists texts, split text = Ok texts) ->
  exists chunks, split_documents split documents = Ok chunks.
Proof.
  intros Htotal. unfold split_documents.
  destruct (for_each_total
              (fun doc => texts ← split (page_content doc);
                          Ok (map (fun chunk => mkDocument chunk (metadata doc)) texts))
              documents) as [chunks Hchunks].
  - intros d _. destruct (Htotal (page_content d)) as [texts ->]. by eexists.
  - rewrite Hchunks. by eexists.
Qed.

Lemma split_documents_singleton split D chunks :
  split_documents split [D] = Ok chunks ->
  exists texts,
    split (page_content D) = Ok texts
    /\ chunks = map (fun text => mkDocument text (metadata D)) texts.
Proof.
  unfold split_documents. simpl. intros Hrun.
  destruct (split (page_content D)) as [texts|e]; [|discriminate].
  simpl in Hrun. injection Hrun as <-. exists texts.
  by rewrite app_nil_r.
Qed.

Lemma split_text_accepts documents co cs sep :
  co <= cs ->
  split_text documents co cs sep
  = split_documents (splitter_split_text (mkTextSplitter cs co sep)) documents.
Proof.
  intros Hle. unfold split_text, CharacterTextSplitter.
  destruct (cs <? co) eqn:Hlt; [lia | done].
Qed.

Lemma split_text_total documents co cs sep :
  0 <= co -> co <= cs -> exists chunks, split_text documents co cs sep = Ok chunks.
Proof.
  intros Hco Hle. rewrite split_text_accepts by done.
  apply split_documents_total. intros text.
  by apply (splitter_split_text_total (mkTextSplitter cs co sep)).
Qed.

(** ** A piece longer than the chunk size stays whole *)

Lemma merge_step_oversized sp sep processed st d st' :
  d <> "" ->
  merge_inv sp sep processed st ->
  oversized_alone sp processed st ->
  merge_step_groups sp sep st d = Ok st' ->
  oversized_alone sp (processed ++ [d]) st'.
Proof.
  intros Hd. destruct st as [[groups cur] total].
  intros (Htotal & Hnonempty & _) Halone Hstep p Hp Hlong.
  unfold oversized_alone in Halone. simpl in Halone.
  pose proof (len_nonneg sep) as Hsep. pose proof (len_nonneg d) as Hlen.
  unfold merge_step_groups in Hstep.
  destruct (chunk_size sp <? total + len d + (if cur is [] then 0 else len sep))
    eqn:Hfull.
  - destruct cur as [|q rest].
    + injection Hstep as <-. simpl.
      apply elem_of_app in Hp as [Hp|Hp].
      * destruct (Halone p Hp Hlong) as [Hin|Hcur]; [by left | done].
      * apply list_elem_of_singleton in Hp as ->. by right.
    + apply bind_Ok in Hstep as ([cur' total'] & Hpop & Hstep).
      injection Hstep as <-. simpl.
      apply elem_of_app in Hp as [Hp|Hp].
      * left. apply elem_of_app.
        destruct (Halone p Hp Hlong) as [Hin|Hcur]; [by left|].
        right. rewrite Hcur. left.
      * apply list_elem_of_singleton in Hp as ->. right.
        destruct (pop_front_Ok sp sep (len d) (q :: rest) total cur' total' Htotal Hpop)
          as (Htotal' & Hsuf & Hroom).
        destruct cur' as [|q' cur'']; [done|]. exfalso.
        assert (Hnonempty' : Forall (fun p => p <> "") (q' :: cur'')).
        { destruct Hsuf as [k Hk]. rewrite Hk in Hnonempty.
          by apply Forall_app in Hnonempty as [_ ?]. }
        pose proof (len_join_pos sep (q' :: cur'') ltac:(done) Hnonempty'). lia.
  - injection Hstep as <-. simpl.
    apply elem_of_app in Hp as [Hp|Hp].
    + destruct (Halone p Hp Hlong) as [Hin|Hcur]; [by left|].
      exfalso. subst cur. simpl in Htotal. lia.
    + apply list_elem_of_singleton in Hp as ->. exfalso.
      assert (0 <= total); [|destruct cur; lia].
      rewrite Htotal. apply len_nonneg.
Qed.

Lemma merge_loop_oversized sp sep processed st splits st' :
  Forall (fun p => p <> "") splits ->
  merge_inv sp sep processed st ->
  oversized_alone sp processed st ->
  merge_loop_groups sp sep st splits = Ok st' ->
  oversized_alone sp (processed ++ splits) st'.
Proof.
  intros Hsplits. revert processed st.
  induction Hsplits as [|d splits Hd Hsplits IH]; intros processed st Hinv Halone Hloop.
  - injection Hloop as <-. by rewrite app_nil_r.
  - simpl in Hloop. apply bind_Ok in Hloop as (st1 & Hstep & Hloop).
    rewrite (app_assoc processed [d] splits : processed ++ d :: splits = _).
    apply (IH _ st1); [|  |done].
    + by apply merge_step_inv with st.
    + by apply merge_step_oversized with sep st.
Qed.

(** A piece longer than the chunk size is a group of its own. *)
Lemma merge_groups_oversized sp sep splits groups p :
  Forall (fun p => p <> "") splits ->
  merge_groups sp splits sep = Ok groups ->
  p ∈ splits -> chunk_size sp < len p ->
  [p] ∈ groups.
Proof.
  intros Hsplits Hrun Hp Hlong. unfold merge_groups in Hrun.
  apply bind_Ok in Hrun as ([[groups' cur] total] & Hloop & Hrun).
  injection Hrun as <-.
  assert (Hinit : oversized_alone sp [] ([], [], 0)) by (intros q Hq; inversion Hq).
  pose proof (merge_loop_oversized sp sep [] _ splits _ Hsplits
                (merge_inv_init sp sep) Hinit Hloop) as Halone.
  apply elem_of_app. destruct (Halone p Hp Hlong) as [Hin|Hcur]; [by left|].
  right. simpl in Hcur. rewrite Hcur. left.
Qed.

(** The chunk of an oversized piece is the piece, stripped. *)
Lemma splitter_split_text_oversized sp text texts piece :
  splitter_split_text sp text = Ok texts ->
  piece ∈ split_pieces (separator sp) text ->
  chunk_size sp < len piece ->
  strip piece <> "" ->
  strip piece ∈ texts.
Proof.
  unfold splitter_split_text. rewrite merge_splits_groups. intros Hrun Hpiece Hlong Hne.
  destruct (merge_groups sp (split_pieces (separator sp) text) (separator sp))
    as [groups|e] eqn:Hgroups; [|discriminate].
  injection Hrun as <-. unfold join_groups. apply list_elem_of_omap.
  exists [piece]. split.
  - by apply (merge_groups_oversized sp (separator sp) (split_pieces (separator sp) text));
      [apply split_pieces_nonempty | | |].
  - unfold join_docs. simpl. by destruct (strip piece).
Qed.

Lemma for_each_elem_Ok {A B} (f : A -> result B) xs ys x :
  for_each f xs = Ok ys -> x ∈ xs -> exists y, f x = Ok y /\ y ∈ ys.
Proof.
  revert ys. induction xs as [|x0 xs IH]; intros ys Hrun Hx; [inversion Hx|].
  simpl in Hrun. apply bind_Ok in Hrun as (y0 & Hy0 & Hrun).
  apply bind_Ok in Hrun as (ys0 & Hys0 & Hrun). injection Hrun as <-.
  apply elem_of_cons in Hx as [->|Hx].
  - exists y0. split; [done | left].
  - destruct (IH _ Hys0 Hx) as (y & Hy & Hin). exists y. split; [done | by right].
Qed.

(** The texts the splitter returns for a document are the contents of
    chunks of that document. *)
Lemma split_documents_parent split documents chunks parent :
  split_documents split documents = Ok chunks ->
  parent ∈ documents ->
  exists texts,
    split (page_content parent) = Ok texts
    /\ forall text, text ∈ texts -> mkDocument text (metadata parent) ∈ chunks.
Proof.
  unfold split_documents. intros Hrun Hparent.
  apply bind_Ok in Hrun as (groups & Hgroups & Hrun). injection Hrun as <-.
  destruct (for_each_elem_Ok _ _ _ _ Hgroups Hparent) as (group & Hgroup & Hin).
  apply bind_Ok in Hgroup as (texts & Htexts & Hgroup). injection Hgroup as <-.
  exists texts. split; [done|]. intros text Htext.
  apply list_elem_of_In, in_concat. eexists. split; [by apply list_elem_of_In|].
  apply list_elem_of_In, list_elem_of_fmap. by exists text.
Qed.

(** C2 (as the code has it): for 0 <= chunk_overlap <= chunk_size the split
    returns chunks; whenever it returns chunks, every chunk is at most
    chunk_size long unless it is one piece of its parent's text that holds
    no separator and is itself longer than chunk_size; and every such
    oversized piece that is not all whitespace is emitted whole as a chunk
    of its own, stripped of surrounding whitespace and with its parent's
    metadata: it is not cut at chunk_size. *)
Theorem chunk_size_bound documents co cs sep :
  (0 <= co -> co <= cs ->
   exists chunks, split_text documents co cs sep = Ok chunks)
  /\ (forall chunks chunk,
        split_text documents co cs sep = Ok chunks ->
        chunk ∈ chunks ->
        len (page_content chunk) <= cs
        \/ exists parent piece,
             parent ∈ documents
             /\ piece ∈ split_pieces sep (page_content parent)
             /\ cs < len piece
             /\ page_content chunk = strip piece
             /\ (sep <> "" -> ~ occurs sep piece))
  /\ (forall chunks parent piece,
        split_text documents co cs sep = Ok chunks ->
        parent ∈ documents ->
        piece ∈ split_pieces sep (page_content parent) ->
        cs < len piece ->
        strip piece <> "" ->
        mkDocument (strip piece) (metadata parent) ∈ chunks).
Proof.
  split; [apply split_text_total|]. split.
  - intros chunks chunk Hrun Hchunk.
    apply split_text_Ok in Hrun as [_ Hrun].
    destruct (split_documents_elem _ _ _ _ Hrun Hchunk)
      as (parent & texts & Hparent & Hsplit & Htext & _).
    apply splitter_split_text_groups in Hsplit as (groups & -> & Hfits & Hst).
    destruct (group_chunk_bound _ _ _ _ _ Hfits Hst Htext)
      as [Hshort|(piece & Hin & Hlong & Hstrip)].
    + by left.
    + right. exists parent, piece. repeat split; try done.
      intros Hsep. by apply (split_pieces_no_separator sep (page_content parent)).
  - intros chunks parent piece Hrun Hparent Hpiece Hlong Hne.
    apply split_text_Ok in Hrun as [Hle Hrun].
    destruct (split_documents_parent _ _ _ _ Hrun Hparent) as (texts & Htexts & Hin).
    apply Hin.
    by apply (splitter_split_text_oversized (mkTextSplitter cs co sep) (page_content parent)).
Qed.

Example long_word_kept_whole :
  split_text [doc "abcdef gh"] 0 3 " " = Ok [doc "abcdef"; doc "gh"].
Proof. reflexivity. Qed.

(** C2 (the claim fails as stated): chunk_overlap 0 and chunk_size 3 are
    valid, and the span "abcdef" holds no separator; it comes out whole,
    six characters long, and is not cut at three. *)
Lemma oversized_span_emitted_whole :
  0 < 3 /\ 3 > 0
  /\ split_text [doc "abcdef gh"] 0 3 " " = Ok [doc "abcdef"; doc "gh"]
  /\ 3 < len (page_content (doc "abcdef")).
Proof. repeat split; lia. Qed.

(** C3 (as the code has it): [split_text] checks nothing itself.  The
    splitter's constructor refuses a chunk_overlap greater than chunk_size
    with a ValueError, before any text is split; with
    0 <= chunk_overlap <= chunk_size and chunk_size > 0, the two equal
    included, the configuration is accepted and the call returns chunks. *)
Theorem split_text_validation documents co cs sep :
  (cs < co ->
   split_text documents co cs sep
   = Raise (ValueError "Got a larger chunk overlap than chunk size, should be smaller."))
  /\ (0 <= co -> co <= cs -> 0 < cs ->
      CharacterTextSplitter co cs sep = Ok (mkTextSplitter cs co sep)
      /\ exists chunks, split_text documents co cs sep = Ok chunks).
Proof.
  split.
  - intros Hlt. unfold split_text, CharacterTextSplitter.
    destruct (cs <? co) eqn:Hcmp; [done | lia].
  - intros Hco Hle _. split; [|by apply split_text_total].
    unfold CharacterTextSplitter. destruct (cs <? co) eqn:Hcmp; [lia | done].
Qed.

(** C3 (the claim fails as stated): chunk_overlap = chunk_size = 5 is a
    configuration the claim wants refused; the call returns a chunk. *)
Lemma equal_overlap_is_accepted :
  5 >= 5 /\ split_text [doc "aa bb"] 5 5 " " = Ok [doc "aa bb"].
Proof. split; [lia | reflexivity]. Qed.

(** ** Step 3: putting the chunks together again *)

Lemma length_drop_prefix k s :
  (String.length (drop_prefix k s) <= String.length s)%nat.
Proof.
  revert s. induction k as [|k IH]; intros s; [done|].
  destruct s as [|c s]; [done|]. simpl. specialize (IH s). lia.
Qed.

Lemma length_reassemble cuts chunks :
  (String.length (reassemble cuts chunks)
   <= sum_list (map String.length chunks))%nat.
Proof.
  revert chunks. induction cuts as [|k cuts IH]; intros chunks; [simpl; lia|].
  destruct chunks as [|chunk chunks]; [simpl; lia|].
  simpl. rewrite length_append. pose proof (length_drop_prefix k chunk).
  specialize (IH chunks). lia.
Qed.

(** C4 (the claim fails as stated): "aa bb" with chunk_size 3 and no
    overlap is split into "aa" and "bb"; whatever is cut off their fronts,
    putting them together gives at most four characters, and not the five
    of the text: the space is lost. *)
Lemma separator_lost_between_chunks :
  0 < 3 /\ 0 < 3
  /\ split_text [doc "aa bb"] 0 3 " " = Ok [doc "aa"; doc "bb"]
  /\ forall cuts,
       reassemble cuts (map page_content [doc "aa"; doc "bb"])
       <> page_content (doc "aa bb").
Proof.
  repeat split; try lia. intros cuts Heq.
  pose proof (length_reassemble cuts (map page_content [doc "aa"; doc "bb"])) as Hlen.
  rewrite Heq in Hlen. simpl in Hlen. lia.
Qed.

(** C4 (as the code has it): the text of a document is the join, by the
    separator, of its pieces.  For 0 <= chunk_overlap <= chunk_size the
    split returns chunks; and whenever it returns chunks they are, in order,
    the joins of groups of the non-empty pieces, stripped, a group that
    strips to nothing giving no chunk; every group is the end of the group
    before it followed by new pieces, and the new pieces of all groups, in
    order, are the non-empty pieces of the text.  What is recovered is the
    sequence of non-empty pieces, not every character. *)
Theorem chunks_stitch_pieces D co cs sep :
  str_join sep (str_split sep (page_content D)) = page_content D
  /\ split_pieces sep (page_content D)
     = filter (fun piece => piece <> "") (str_split sep (page_content D))
  /\ (0 <= co -> co <= cs -> exists chunks, split_text [D] co cs sep = Ok chunks)
  /\ (forall chunks,
        split_text [D] co cs sep = Ok chunks ->
        exists groups,
          chunks = map (fun text => mkDocument text (metadata D)) (join_groups sep groups)
          /\ stitched [] groups (split_pieces sep (page_content D))).
Proof.
  split; [apply str_split_join|]. split; [done|].
  split; [apply split_text_total|]. intros chunks Hrun.
  apply split_text_Ok in Hrun as [_ Hrun].
  apply split_documents_singleton in Hrun as (texts & Hsplit & ->).
  apply splitter_split_text_groups in Hsplit as (groups & -> & _ & Hst).
  by exists groups.
Qed.

Example overlapping_chunks :
  split_text [doc "aa bb cc dd"] 2 5 " "
  = Ok [doc "aa bb"; doc "bb cc"; doc "cc dd"].
Proof. reflexivity. Qed.

Example merge_groups_demo :
  merge_groups (mkTextSplitter 5 2 " ") (split_pieces " " "aa bb cc dd") " "
  = Ok [["aa"; "bb"]; ["bb"; "cc"]; ["cc"; "dd"]].
Proof. vm_compute. reflexivity. Qed.

(** ** Step 4: inserting into the store *)

Section StoreProperties.
Context `{EmbeddingGateway}.

Lemma fresh_id_fresh (store : Chroma) : fresh_id store ∉ map rec_id store.
Proof. apply max_list_not_elem_of_gt. unfold fresh_id. lia. Qed.

(** [add_documents] appends one record per document, in order, under
    identifiers that are new and pairwise distinct. *)
Lemma add_documents_appends (store : Chroma) documents :
  exists news,
    add_documents store documents = store ++ news
    /\ map to_document news = documents
    /\ NoDup (map rec_id news)
    /\ forall r, r ∈ news -> rec_id r ∉ map rec_id store.
Proof.
  revert store. induction documents as [|d ds IH]; intros store; simpl.
  - exists []. rewrite app_nil_r. repeat split; [constructor | intros r Hr; inversion Hr].
  - set (r0 := mkRecord (fresh_id store) (page_content d) (metadata d)
                        (embed (page_content d))).
    destruct (IH (store ++ [r0])) as (news & Heq & Hdocs & Hnodup & Hfresh).
    exists (r0 :: news). rewrite Heq, <- app_assoc. simpl.
    split; [done|]. split; [by destruct d; rewrite Hdocs|].
    split.
    + constructor; [|done]. intros Hin.
      apply list_elem_of_fmap in Hin as (r & Hid & Hr).
      apply (Hfresh r Hr). rewrite map_app, <- Hid. simpl.
      apply elem_of_app. right. left.
    + intros r Hr. apply elem_of_cons in Hr as [->|Hr].
      * apply fresh_id_fresh.
      * intros Hin. apply (Hfresh r Hr). rewrite map_app.
        apply elem_of_app. by left.
Qed.

Lemma filter_not_in_nil (l : list Document) :
  filter (fun doc => doc ∉ []) l = l.
Proof.
  induction l as [|x l IH]; [done|].
  rewrite filter_cons_True; [by rewrite IH | by inversion 1].
Qed.

Lemma add_documents_nil_filter (store : Chroma) (kept : list Document) :
  exists news,
    match kept with
    | [] => Ok store
    | _ => Ok (add_documents store kept)
    end = Ok (store ++ news)
    /\ map to_document news = kept
    /\ NoDup (map rec_id news)
    /\ forall r, r ∈ news -> rec_id r ∉ map rec_id store.
Proof.
  destruct kept as [|d ds].
  - exists []. rewrite app_nil_r. repeat split; [constructor | intros r Hr; inversion Hr].
  - destruct (add_documents_appends store (d :: ds)) as (news & -> & ?).
    exists news. done.
Qed.

(** With [allow_duplicates=True] nothing is scanned and every document of
    the batch is added. *)
Lemma insert_all (store : Chroma) ingest_data limit :
  exists news,
    add_documents_to_vector_store store ingest_data true limit = Ok (store ++ news)
    /\ map to_document news = ingest_data
    /\ NoDup (map rec_id news)
    /\ forall r, r ∈ news -> rec_id r ∉ map rec_id store.
Proof.
  unfold add_documents_to_vector_store. destruct ingest_data as [|d ds].
  - exists []. rewrite app_nil_r. repeat split; [constructor | intros r Hr; inversion Hr].
  - simpl negb. cbv iota. change (Ok [] ≫= ?k) with (k []). cbv beta.
    rewrite filter_not_in_nil. apply (add_documents_nil_filter store (d :: ds)).
Qed.

(** C5: with allow_duplicates=true every chunk of the batch is appended,
    in order, each under an identifier that no stored record and no other
    new record carries; inserting the same (content, metadata) pair twice
    gives two stored records with distinct identifiers. *)
Theorem insert_allowing_duplicates (store : Chroma) ingest_data limit :
  (exists news,
      add_documents_to_vector_store store ingest_data true limit = Ok (store ++ news)
      /\ map to_document news = ingest_data
      /\ NoDup (map rec_id news)
      /\ forall r, r ∈ news -> rec_id r ∉ map rec_id store)
  /\ (forall d, exists r1 r2,
        (store' ← add_documents_to_vector_store store [d] true limit;
         add_documents_to_vector_store store' [d] true limit)
        = Ok (store ++ [r1; r2])
        /\ to_document r1 = d /\ to_document r2 = d
        /\ rec_id r1 <> rec_id r2).
Proof.
  split; [apply insert_all|]. intros d.
  destruct (insert_all store [d] limit) as (news1 & Hrun1 & Hdocs1 & _ & _).
  destruct news1 as [|r1 [|? ?]]; try discriminate Hdocs1.
  destruct (insert_all (store ++ [r1]) [d] limit) as (news2 & Hrun2 & Hdocs2 & _ & Hfresh2).
  destruct news2 as [|r2 [|? ?]]; try discriminate Hdocs2.
  exists r1, r2. rewrite Hrun1. change (Ok ?s ≫= ?k) with (k s). cbv beta.
  rewrite Hrun2, <- app_assoc. simpl.
  injection Hdocs1 as Hd1. injection Hdocs2 as Hd2.
  repeat split; try done.
  intros Heq. apply (Hfresh2 r2); [left|].
  rewrite map_app, <- Heq. apply elem_of_app. right. left.
Qed.



Lemma for_each_del_id_Raise (records : list EmbeddedRecord) r :
  r ∈ records -> rec_metadata r !! "id" = None ->
  for_each del_id (map to_document records) = Raise (KeyError "id").
Proof.
  intros Hr Hid.
  apply (for_each_Raise del_id _ (to_document r)).
  - apply list_elem_of_fmap. by exists r.
  - unfold del_id. simpl. by rewrite Hid.
  - intros d e. unfold del_id. destruct (metadata d !! "id"); [discriminate | congruence].
Qed.


End StoreProperties.



Example batch_duplicates_stored_after_scan :
  stored_documents
    <$> add_documents_to_vector_store keyed_store
          [doc "a"; doc "b"; doc "a"] false (Some 10)
  = Ok (stored_documents keyed_store ++ [doc "a"; doc "a"]).
Proof. vm_compute. reflexivity. Qed.

Example batch_duplicates_stored :
  stored_documents
    <$> add_documents_to_vector_store (H := length_gateway) []
          [doc "a"; doc "b"; doc "a"] false (Some 10)
  = Ok [doc "a"; doc "b"; doc "a"].
Proof. vm_compute. reflexivity. Qed.

(** ** Step 5: ranking *)

Section Ranking.
Context `{EmbeddingGateway}.
Variable score : EmbeddedRecord -> Q.

Lemma insert_ranked_perm r ranked : insert_ranked score r ranked ≡ₚ r :: ranked.
Proof.
  induction ranked as [|r' rest IH]; simpl; [done|].
  destruct (Qle_bool (score r) (score r')); [done|].
  rewrite IH. apply Permutation_swap.
Qed.

Lemma rank_by_perm store : rank_by score store ≡ₚ store.
Proof.
  induction store as [|r store IH]; simpl; [done|].
  rewrite insert_ranked_perm. by constructor.
Qed.

Lemma insert_ranked_sorted r ranked :
  StronglySorted (no_worse score) ranked -> StronglySorted (no_worse score) (insert_ranked score r ranked).
Proof.
  induction 1 as [|r' rest Hsorted IH Hall]; simpl.
  - repeat constructor.
  - destruct (Qle_bool (score r) (score r')) eqn:Hle.
    + apply Qle_bool_iff in Hle. constructor; [by constructor|].
      constructor; [done|]. eapply Forall_impl; [exact Hall|].
      intros x Hx. unfold no_worse in *. by apply Qle_trans with (score r').
    + assert (score r' <= score r)%Q as Hge.
      { apply Qlt_le_weak, Qnot_le_lt. intros Hle'.
        apply Qle_bool_iff in Hle'. congruence. }
      constructor; [done|].
      rewrite insert_ranked_perm. by constructor.
Qed.

Lemma rank_by_sorted store : StronglySorted (no_worse score) (rank_by score store).
Proof.
  induction store as [|r store IH]; simpl; [constructor|].
  by apply insert_ranked_sorted.
Qed.

(** Ranking keeps the records of one distance in their insertion order. *)
Lemma insert_ranked_ties q r ranked :
  filter (tied score q) (insert_ranked score r ranked)
  = filter (tied score q) (r :: ranked).
Proof.
  induction ranked as [|r' rest IH]; simpl; [done|].
  destruct (Qle_bool (score r) (score r')) eqn:Hle; [done|].
  assert (score r' < score r)%Q as Hlt.
  { apply Qnot_le_lt. intros Hle'. apply Qle_bool_iff in Hle'. congruence. }
  rewrite (filter_cons _ r'), IH, !(filter_cons _ r), !(filter_cons _ r').
  unfold tied.
  destruct (decide (score r == q)%Q) as [Hr|Hr]; [|done].
  destruct (decide (score r' == q)%Q) as [Hr'|Hr']; [|done].
  rewrite Hr, Hr' in Hlt. by apply Qlt_irrefl in Hlt.
Qed.

Lemma rank_by_ties q store :
  filter (tied score q) (rank_by score store)
  = filter (tied score q) store.
Proof.
  induction store as [|r store IH]; simpl; [done|].
  rewrite insert_ranked_ties, !(filter_cons _ r), IH. done.
Qed.

Lemma take_drop_sorted k (ranked : list EmbeddedRecord) r r' :
  StronglySorted (no_worse score) ranked ->
  r ∈ take k ranked -> r' ∈ drop k ranked -> no_worse score r r'.
Proof.
  intros Hsorted. revert k.
  induction Hsorted as [|x rest Hs IH Hall]; intros k Hr Hr'.
  - rewrite take_nil in Hr. inversion Hr.
  - destruct k as [|k]; [inversion Hr|]. simpl in Hr, Hr'.
    apply elem_of_cons in Hr as [->|Hr]; [|by apply (IH k)].
    rewrite Forall_forall in Hall. apply Hall.
    by apply (subseteq_drop k rest).
Qed.

End Ranking.

Section Search.
Context `{EmbeddingGateway}.

(** A scan as wide as the store returns every stored record. *)
Lemma search_all (store : Chroma) query k r :
  (length store <= k)%nat -> r ∈ store -> r ∈ search store query k.
Proof.
  intros Hk Hr. unfold search. rewrite take_ge.
  - by rewrite rank_by_perm.
  - by rewrite rank_by_perm.
Qed.

(** C6: a search for k > 0 results succeeds and returns at most k records
    in order of non-decreasing distance to the query; the records left out
    are no nearer than the ones returned; among records at one distance the
    earliest inserted come first, in insertion order.  The result is a
    function of the store, the query and k, so an identical search on an
    unchanged store returns the same list. *)
Theorem search_ranking (store : Chroma) query k :
  0 < k ->
  let score := query_distance query in
  let results := search store query (Z.to_nat k) in
  similarity_search store query (Some k) = Ok (map to_document results)
  /\ Z.of_nat (length results) <= k
  /\ StronglySorted (no_worse score) results
  /\ (exists rest,
        results ++ rest ≡ₚ store
        /\ forall r r', r ∈ results -> r' ∈ rest -> no_worse score r r')
  /\ (forall q, filter (tied score q) results `prefix_of` filter (tied score q) store).
Proof.
  intros Hk score results.
  assert (Hsplit : results ++ drop (Z.to_nat k) (rank_by score store)
                   = rank_by score store) by apply take_drop.
  pose proof (rank_by_sorted score store) as Hsorted.
  repeat split.
  - unfold similarity_search. destruct (0 <? k) eqn:Hpos; [done | lia].
  - unfold results, search. rewrite length_take. lia.
  - rewrite <- Hsplit in Hsorted. by apply StronglySorted_app_1_l in Hsorted.
  - exists (drop (Z.to_nat k) (rank_by score store)). split.
    + rewrite Hsplit. apply rank_by_perm.
    + intros r r'. by apply take_drop_sorted.
  - intros q. rewrite <- (rank_by_ties score q store), <- Hsplit, filter_app.
    by apply prefix_app_r.
Qed.

(** C7: the context is the contents of the search results joined by
    newlines, in the order of the results; with no result it is the empty
    string, and no error. *)
Theorem retrieve_joins_contents (store : Chroma) query k :
  0 < k ->
  exists results,
    similarity_search store query (Some k) = Ok results
    /\ retrieve store query k = Ok (str_join newline (map page_content results))
    /\ (results = [] -> retrieve store query k = Ok "")
    /\ (forall first second rest,
          results = first :: second :: rest ->
          retrieve store query k
          = Ok (page_content first +:+ newline
                  +:+ search_result_text (second :: rest))).
Proof.
  intros Hk. unfold retrieve, similarity_search.
  destruct (0 <? k) eqn:Hpos; [|lia].
  eexists. split; [reflexivity|].
  change (Ok ?s ≫= ?f) with (f s). cbv beta. unfold search_result_text.
  repeat split.
  - by intros ->.
  - by intros first second rest ->.
Qed.

(** The context of the notebook is [retrieve] with its [k=5]. *)
Lemma notebook_context (store : Chroma) query :
  (results ← search_results store query; Ok (search_result_text results))
  = retrieve store query 5.
Proof. reflexivity. Qed.

End Search.

Lemma search_ranking_witness :
  let score := query_distance (H := length_gateway) "x" in
  let results := search sample_store "x" (Z.to_nat 2) in
  similarity_search sample_store "x" (Some 2) = Ok (map to_document results)
  /\ Z.of_nat (length results) <= 2
  /\ StronglySorted (no_worse score) results
  /\ (exists rest,
        results ++ rest ≡ₚ sample_store
        /\ forall r r', r ∈ results -> r' ∈ rest -> no_worse score r r')
  /\ (forall q, filter (tied score q) results `prefix_of` filter (tied score q) sample_store).
Proof. apply (search_ranking (H := length_gateway) sample_store "x" 2). lia. Defined.

Example search_ties_in_insertion_order :
  map (fun r => (rec_id r, rec_content r)) (search sample_store "x" 3)
  = [(2%nat, "b"); (4%nat, "d"); (3%nat, "cc")].
Proof. vm_compute. reflexivity. Qed.

Lemma retrieve_joins_contents_witness :
  exists results,
    similarity_search sample_store "x" (Some 3) = Ok results
    /\ retrieve sample_store "x" 3 = Ok (str_join newline (map page_content results))
    /\ (results = [] -> retrieve sample_store "x" 3 = Ok "")
    /\ (forall first second rest,
          results = first :: second :: rest ->
          retrieve sample_store "x" 3
          = Ok (page_content first +:+ newline
                  +:+ search_result_text (second :: rest))).
Proof. apply (retrieve_joins_contents (H := length_gateway) sample_store "x" 3). lia. Defined.

Example retrieve_demo :
  retrieve sample_store "x" 3 = Ok ("b" +:+ newline +:+ "d" +:+ newline +:+ "cc").
Proof. vm_compute. reflexivity. Qed.

Example retrieve_nothing :
  retrieve (H := length_gateway) [] "x" 5 = Ok "".
Proof. vm_compute. reflexivity. Qed.

(** ** Step 4: the deduplicating insert *)

Section Deduplication.
Context `{EmbeddingGateway}.

Lemma del_id_Raise d e : del_id d = Raise e -> e = KeyError "id".
Proof. unfold del_id. destruct (metadata d !! "id"); [discriminate | congruence]. Qed.

(** Once the scan reaches a stored record whose metadata has no ["id"] key,
    a deduplicating insert raises [KeyError] and stores nothing. *)
Lemma scan_raises_without_id (store : Chroma) ingest_data limit r :
  ingest_data <> [] ->
  0 < limit -> Z.of_nat (length store) <= limit ->
  r ∈ store -> rec_metadata r !! "id" = None ->
  add_documents_to_vector_store store ingest_data false (Some limit)
  = Raise (KeyError "id").
Proof.
  intros Hne Hpos Hlimit Hr Hid. unfold add_documents_to_vector_store.
  destruct ingest_data as [|d ds]; [done|]. simpl negb. cbv iota.
  unfold similarity_search. destruct (0 <? limit) eqn:Hlt; [|lia].
  change (Ok ?s ≫= ?f) with (f s). cbv beta.
  rewrite (for_each_Raise del_id _ (to_document r) (KeyError "id")); [done| | |].
  - apply list_elem_of_fmap. exists r. split; [done|]. apply search_all; [lia | done].
  - unfold del_id. simpl. by rewrite Hid.
  - intros x e. apply del_id_Raise.
Qed.

(** A record the store has just taken in carries the metadata of its
    document, and no ["id"] key unless the document had one. *)
Lemma add_documents_elem (store : Chroma) documents d :
  d ∈ documents ->
  exists r, r ∈ add_documents store documents /\ to_document r = d.
Proof.
  intros Hd. destruct (add_documents_appends store documents) as (news & -> & Hdocs & _).
  rewrite <- Hdocs in Hd. apply list_elem_of_fmap in Hd as (r & -> & Hr).
  exists r. split; [|done]. apply elem_of_app. by right.
Qed.

Lemma length_add_documents (store : Chroma) documents :
  length (add_documents store documents) = (length store + length documents)%nat.
Proof.
  destruct (add_documents_appends store documents) as (news & -> & Hdocs & _).
  rewrite length_app, <- Hdocs, length_map. done.
Qed.

(** The second of two deduplicating inserts of a new document raises. *)
Lemma second_insert_raises (store : Chroma) d limit :
  metadata d !! "id" = None ->
  Z.of_nat (length store) < limit ->
  add_documents_to_vector_store store [d] false (Some limit)
  = Ok (add_documents store [d]) ->
  add_documents_to_vector_store (add_documents store [d]) [d] false (Some limit)
  = Raise (KeyError "id").
Proof.
  intros Hid Hlimit _.
  destruct (add_documents_elem store [d] d) as (r & Hr & Hdoc); [left|].
  apply scan_raises_without_id with r; try done; try lia.
  - rewrite length_add_documents. simpl. lia.
  - by rewrite <- Hdoc in Hid.
Qed.

(** What the scan is for: a batch whose documents all match a stripped
    stored record adds nothing. *)
Lemma dedup_skips_scanned (store : Chroma) ingest_data limit scanned :
  (stored_data ← similarity_search store "" limit; for_each del_id stored_data)
  = Ok scanned ->
  Forall (fun d => d ∈ scanned) ingest_data ->
  add_documents_to_vector_store store ingest_data false limit = Ok store.
Proof.
  intros Hscan Hall. unfold add_documents_to_vector_store.
  destruct ingest_data as [|d ds]; [done|]. simpl negb. cbv iota. rewrite Hscan.
  change (Ok ?s ≫= ?k) with (k s). cbv beta.
  replace (filter (fun doc => doc ∉ scanned) (d :: ds)) with (@nil Document); [done|].
  symmetry. induction Hall as [|x l Hx Hl IH]; [done|].
  rewrite filter_cons_False; [exact IH | by intros Hnot].
Qed.

End Deduplication.

Example keyed_record_is_matched :
  add_documents_to_vector_store keyed_store [doc "b"] false (Some 10) = Ok keyed_store.
Proof. vm_compute. reflexivity. Qed.

(** C1 (the code fails the claim): inserting the pair ("a", {}) twice with
    allow_duplicates=False and limit=10 into an empty store.  The first call
    stores the pair; the second one raises KeyError at
    [del doc.metadata['id']], since the stored pair has no "id" key. *)
Theorem second_dedup_insert_raises_KeyError :
  add_documents_to_vector_store (H := length_gateway) [] [doc "a"] false (Some 10)
  = Ok [mkRecord (H := length_gateway) 1 "a" ∅ 1]
  /\ add_documents_to_vector_store (H := length_gateway)
       [mkRecord (H := length_gateway) 1 "a" ∅ 1] [doc "a"] false (Some 10)
     = Raise (KeyError "id").
Proof.
  split; [reflexivity|].
  apply (second_insert_raises (H := length_gateway) [] (doc "a") 10); [done | simpl; lia | reflexivity].
Qed.

(** A pair that carries an "id" key of its own is stored twice. *)
Example dedup_misses_pair_with_id :
  let d := mkDocument "a" (<["id" := PyInt 7]> ∅) in
  stored_documents
    <$> (store ← add_documents_to_vector_store (H := length_gateway) [] [d] false (Some 10);
         add_documents_to_vector_store store [d] false (Some 10))
  = Ok [d; d].
Proof. vm_compute. reflexivity. Qed.

(** ** Regular expressions: the matcher decides the language *)

Lemma lang_Never s : lang Never s <-> False.
Proof. split; [inversion 1 | done]. Qed.

Lemma lang_Epsilon s : lang Epsilon s <-> s = "".
Proof. split; [by inversion 1 | intros ->; constructor]. Qed.

Lemma lang_Class p s : lang (Class p) s <-> exists c, s = String c "" /\ p c = true.
Proof.
  split.
  - inversion 1; subst. eauto.
  - intros (c & -> & Hc). by constructor.
Qed.

Lemma lang_Seq r1 r2 s :
  lang (Seq r1 r2) s <-> exists s1 s2, s = s1 +:+ s2 /\ lang r1 s1 /\ lang r2 s2.
Proof.
  split.
  - inversion 1; subst. eauto.
  - intros (s1 & s2 & -> & H1 & H2). by constructor.
Qed.

Lemma lang_Or r1 r2 s : lang (Or r1 r2) s <-> lang r1 s \/ lang r2 s.
Proof.
  split.
  - inversion 1; subst; auto.
  - intros [H|H]; [by apply lang_or_l | by apply lang_or_r].
Qed.

Lemma lang_Seq_Never_l r s : lang (Seq Never r) s <-> False.
Proof. rewrite lang_Seq. split; [|done]. intros (? & ? & _ & H & _). inversion H. Qed.

Lemma lang_Seq_Never_r r s : lang (Seq r Never) s <-> False.
Proof. rewrite lang_Seq. split; [|done]. intros (? & ? & _ & _ & H). inversion H. Qed.

Lemma lang_Seq_Epsilon_l r s : lang (Seq Epsilon r) s <-> lang r s.
Proof.
  rewrite lang_Seq. split.
  - intros (s1 & s2 & -> & H1 & H2). apply lang_Epsilon in H1 as ->.
    by rewrite append_nil_l.
  - intros Hs. exists "", s. rewrite append_nil_l. split; [done|]. split; [constructor | done].
Qed.

Lemma lang_Seq_Epsilon_r r s : lang (Seq r Epsilon) s <-> lang r s.
Proof.
  rewrite lang_Seq. split.
  - intros (s1 & s2 & -> & H1 & H2). apply lang_Epsilon in H2 as ->.
    by rewrite append_empty_r.
  - intros Hs. exists s, "". rewrite append_empty_r. split; [done|]. split; [done | constructor].
Qed.

Lemma lang_smart_seq r1 r2 s : lang (seq r1 r2) s <-> lang (Seq r1 r2) s.
Proof.
  destruct r1, r2; cbn [seq];
    rewrite ?lang_Seq_Never_l, ?lang_Seq_Never_r, ?lang_Seq_Epsilon_l,
            ?lang_Seq_Epsilon_r, ?lang_Never; tauto.
Qed.

Lemma lang_smart_alt r1 r2 s : lang (alt r1 r2) s <-> lang (Or r1 r2) s.
Proof.
  destruct r1, r2; cbn [alt]; rewrite ?lang_Or, ?lang_Never; tauto.
Qed.

Lemma append_eq_nil (a b : string) : a +:+ b = "" -> a = "" /\ b = "".
Proof. destruct a; [by rewrite append_nil_l | by rewrite append_cons]. Qed.

Lemma nullable_lang r : nullable r = true <-> lang r "".
Proof.
  induction r as [| |p|r1 IH1 r2 IH2|r1 IH1 r2 IH2|r IH]; simpl.
  - rewrite lang_Never. done.
  - rewrite lang_Epsilon. done.
  - rewrite lang_Class. split; [done | by intros (c & ? & _)].
  - rewrite andb_true_iff, IH1, IH2, lang_Seq. split.
    + intros [H1 H2]. exists "", "". by rewrite append_nil_l.
    + intros (s1 & s2 & Heq & H1 & H2). symmetry in Heq.
      apply append_eq_nil in Heq as [-> ->]. done.
  - rewrite orb_true_iff, IH1, IH2, lang_Or. done.
  - split; [intros _; constructor | done].
Qed.

(** A non-empty word of [Star r] starts with a non-empty word of [r]. *)
Lemma lang_Star_cons r t :
  lang (Star r) t -> forall c s, t = String c s ->
  exists s1 s2, s = s1 +:+ s2 /\ lang r (String c s1) /\ lang (Star r) s2.
Proof.
  remember (Star r) as r' eqn:Hr'. intros Hlang.
  induction Hlang as [| | | | | |r0 s1 s2 H1 _ H2 IH2]; try discriminate.
  injection Hr' as ->. intros c s Heq. destruct s1 as [|c1 s1].
  - rewrite append_nil_l in Heq. by apply IH2.
  - rewrite append_cons in Heq. injection Heq as -> <-. eauto.
Qed.

Lemma deriv_lang c r s : lang (deriv c r) s <-> lang r (String c s).
Proof.
  revert s. induction r as [| |p|r1 IH1 r2 IH2|r1 IH1 r2 IH2|r IH]; intros s; simpl.
  - rewrite !lang_Never. done.
  - rewrite lang_Never, lang_Epsilon. done.
  - rewrite lang_Class. destruct (p c) eqn:Hp.
    + rewrite lang_Epsilon. split.
      * intros ->. eauto.
      * intros (c' & Heq & _). by injection Heq.
    + rewrite lang_Never. split; [done|]. intros (c' & Heq & Hc').
      injection Heq as -> _. congruence.
  - rewrite lang_smart_alt, lang_Or, lang_smart_seq, !lang_Seq. split.
    + intros [(s1 & s2 & -> & H1 & H2)|Hright].
      * apply IH1 in H1. exists (String c s1), s2. by rewrite append_cons.
      * destruct (nullable r1) eqn:Hnull; [|by apply lang_Never in Hright].
        apply IH2 in Hright. apply nullable_lang in Hnull.
        exists "", (String c s). by rewrite append_nil_l.
    + intros (s1 & s2 & Heq & H1 & H2). destruct s1 as [|c1 s1].
      * rewrite append_nil_l in Heq. subst s2. right.
        apply nullable_lang in H1. rewrite H1. by apply IH2.
      * rewrite append_cons in Heq. injection Heq as <- ->. left.
        exists s1, s2. split; [done|]. split; [by apply IH1 | done].
  - rewrite lang_smart_alt, !lang_Or, IH1, IH2. done.
  - rewrite lang_smart_seq, lang_Seq. split.
    + intros (s1 & s2 & -> & H1 & H2). apply IH in H1.
      rewrite <- append_cons. by constructor.
    + intros Hstar.
      destruct (lang_Star_cons r _ Hstar c s eq_refl) as (s1 & s2 & -> & H1 & H2).
      exists s1, s2. split; [done|]. split; [by apply IH | done].
Qed.

(** The matcher accepts exactly the words of the language. *)
Lemma accepts_lang r s : accepts r s = true <-> lang r s.
Proof.
  unfold accepts. revert r. induction s as [|c s IH]; intros r; simpl.
  - apply nullable_lang.
  - rewrite IH. apply deriv_lang.
Qed.

(** ** Step 1: what [ensure_url] accepts *)

Lemma derivs_append (a b : string) r : derivs (a +:+ b) r = derivs b (derivs a r).
Proof.
  revert r. induction a as [|c a IH]; intros r; [by rewrite append_nil_l|].
  rewrite append_cons. simpl. apply IH.
Qed.

Lemma all_chars_append P (a b : string) :
  all_chars P (a +:+ b) = all_chars P a && all_chars P b.
Proof.
  induction a as [|c a IH]; [by rewrite append_nil_l|].
  rewrite append_cons. simpl. by rewrite IH, andb_assoc.
Qed.

Lemma lang_all_chars P r s :
  classes_within P r -> lang r s -> all_chars P s = true.
Proof.
  intros Hwithin Hlang. induction Hlang as
    [|p c Hc|r1 r2 s1 s2 _ IH1 _ IH2|r1 r2 s _ IH|r1 r2 s _ IH| |r s1 s2 _ IH1 _ IH2];
    simpl in Hwithin.
  - done.
  - simpl. by rewrite (Hwithin c Hc).
  - destruct Hwithin. rewrite all_chars_append, IH1, IH2; done.
  - destruct Hwithin. auto.
  - destruct Hwithin. auto.
  - done.
  - rewrite all_chars_append, IH1, IH2; done.
Qed.

Lemma lang_Star_class P s : lang (Star (Class P)) s <-> all_chars P s = true.
Proof.
  split.
  - apply lang_all_chars. simpl. done.
  - induction s as [|c s IH]; intros Hall; [constructor|].
    simpl in Hall. apply andb_true_iff in Hall as [Hc Hs].
    change (String c s) with (String c "" +:+ s).
    constructor; [by constructor | by apply IH].
Qed.

Lemma lang_plus_class P s :
  lang (plus (Class P)) s <-> s <> "" /\ all_chars P s = true.
Proof.
  unfold plus. rewrite lang_Seq. split.
  - intros (s1 & s2 & -> & H1 & H2). apply lang_Class in H1 as (c & -> & Hc).
    apply lang_Star_class in H2. rewrite append_cons, append_nil_l.
    split; [done|]. simpl. by rewrite Hc.
  - intros [Hne Hall]. destruct s as [|c s]; [done|].
    simpl in Hall. apply andb_true_iff in Hall as [Hc Hs].
    exists (String c ""), s. split; [done|].
    split; [by constructor | by apply lang_Star_class].
Qed.

Lemma lang_opt r s : lang (opt r) s <-> s = "" \/ lang r s.
Proof. unfold opt. by rewrite lang_Or, lang_Epsilon. Qed.

Lemma lower_colon c : Ascii.eqb (lower c) (lower ":") = true -> c = ":"%char.
Proof. destruct c as [[] [] [] [] [] [] [] []]; vm_compute; congruence. Qed.

Lemma lower_slash c : Ascii.eqb (lower c) (lower "/") = true -> c = "/"%char.
Proof. destruct c as [[] [] [] [] [] [] [] []]; vm_compute; congruence. Qed.

Lemma eqb_newline c : Ascii.eqb (ascii_of_nat 10) c = true -> c = ascii_of_nat 10.
Proof. intros Hc. symmetry. by apply Ascii.eqb_eq. Qed.

Lemma lang_port s :
  lang port s
  <-> exists digits, s = ":" +:+ digits /\ digits <> "" /\ all_chars is_digit digits = true.
Proof.
  unfold port. rewrite lang_Seq. split.
  - intros (s1 & s2 & -> & H1 & H2). apply lang_Class in H1 as (c & -> & Hc).
    apply lower_colon in Hc as ->. apply lang_plus_class in H2 as [Hne Hall].
    by exists s2.
  - intros (digits & -> & Hne & Hall). exists ":", digits. split; [done|].
    split; [by constructor | by apply lang_plus_class].
Qed.

Lemma lang_path s :
  lang path s
  <-> exists rest, s = "/" +:+ rest /\ all_chars (fun c => negb (is_space c)) rest = true.
Proof.
  unfold path. rewrite lang_Seq. split.
  - intros (s1 & s2 & -> & H1 & H2). apply lang_Class in H1 as (c & -> & Hc).
    apply lower_slash in Hc as ->. apply lang_Star_class in H2.
    by exists s2.
  - intros (rest & -> & Hall). exists "/", rest. split; [done|].
    split; [by constructor | by apply lang_Star_class].
Qed.

Lemma lang_dollar s : lang dollar s <-> s = "" \/ s = newline.
Proof.
  unfold dollar. rewrite lang_opt, lang_Class. split.
  - intros [->|(c & -> & Hc)]; [by left|]. right. by apply eqb_newline in Hc as ->.
  - intros [->| ->]; [by left|]. right. exists (ascii_of_nat 10). done.
Qed.

Lemma host_classes :
  classes_within is_domain_char (Seq (opt www) (Seq domain (opt top_level_domain))).
Proof.
  simpl. repeat split; try done;
    intros c; destruct c as [[] [] [] [] [] [] [] []]; vm_compute; congruence.
Qed.

(** After the scheme the pattern asks for a host, and for no more than
    that the host is made of the characters of a domain. *)
Lemma lang_url_rest s :
  lang url_rest s
  <-> exists host po pa eol,
        s = host +:+ po +:+ pa +:+ eol
        /\ host <> "" /\ all_chars is_domain_char host = true
        /\ (po = "" \/ lang port po)
        /\ (pa = "" \/ lang path pa)
        /\ (eol = "" \/ eol = newline).
Proof.
  unfold url_rest. split.
  - intros Hlang.
    apply lang_Seq in Hlang as (w & s1 & -> & Hw & Hlang).
    apply lang_Seq in Hlang as (d & s2 & -> & Hd & Hlang).
    apply lang_Seq in Hlang as (t & s3 & -> & Ht & Hlang).
    apply lang_Seq in Hlang as (po & s4 & -> & Hpo & Hlang).
    apply lang_Seq in Hlang as (pa & eol & -> & Hpa & Heol).
    exists (w +:+ d +:+ t), po, pa, eol.
    split; [by rewrite !append_assoc|].
    assert (Hhost : lang (Seq (opt www) (Seq domain (opt top_level_domain)))
                         (w +:+ d +:+ t)).
    { apply lang_seq; [done|]. by apply lang_seq. }
    apply lang_plus_class in Hd as [Hne _].
    split.
    { intros Heq. apply append_eq_nil in Heq as [_ Heq].
      by apply append_eq_nil in Heq as [? _]. }
    split; [by apply (lang_all_chars _ _ _ host_classes)|].
    split; [by apply lang_opt|]. split; [by apply lang_opt|]. by apply lang_dollar.
  - intros (host & po & pa & eol & -> & Hne & Hall & Hpo & Hpa & Heol).
    rewrite <- (append_nil_l (host +:+ _)). constructor; [by apply lang_opt; left|].
    constructor; [by apply lang_plus_class|].
    rewrite <- (append_nil_l (po +:+ _)). constructor; [by apply lang_opt; left|].
    constructor; [by apply lang_opt|]. constructor; [by apply lang_opt|].
    by apply lang_dollar.
Qed.

Lemma url_shape_rest u :
  url_shape u
  <-> exists scheme rest,
        u = scheme +:+ rest /\ (scheme = "http://" \/ scheme = "https://")
        /\ lang url_rest rest.
Proof.
  unfold url_shape. split.
  - intros (scheme & host & po & pa & eol & -> & Hscheme & Hne & Hall & Hpo & Hpa & Heol).
    exists scheme, (host +:+ po +:+ pa +:+ eol). split; [done|]. split; [done|].
    apply lang_url_rest. exists host, po, pa, eol. repeat split; try done.
    + destruct Hpo as [->|Hpo]; [by left | right; by apply lang_port].
    + destruct Hpa as [->|Hpa]; [by left | right; by apply lang_path].
  - intros (scheme & rest & -> & Hscheme & Hlang).
    apply lang_url_rest in Hlang as (host & po & pa & eol & -> & Hne & Hall & Hpo & Hpa & Heol).
    exists scheme, host, po, pa, eol. repeat split; try done.
    + destruct Hpo as [->|Hpo]; [by left | right; by apply lang_port].
    + destruct Hpa as [->|Hpa]; [by left | right; by apply lang_path].
Qed.

Lemma accepts_after_scheme scheme rest :
  scheme = "http://" \/ scheme = "https://" ->
  accepts url_regex (scheme +:+ rest) = accepts url_rest rest.
Proof. intros [-> | ->]; unfold accepts; by rewrite derivs_append. Qed.

Lemma with_scheme_prefix s :
  exists scheme rest,
    with_scheme s = scheme +:+ rest /\ (scheme = "http://" \/ scheme = "https://").
Proof.
  unfold with_scheme. destruct (String.prefix "http://" s) eqn:Hhttp.
  - apply prefix_inv in Hhttp as [rest ->]. exists "http://", rest. auto.
  - destruct (String.prefix "https://" s) eqn:Hhttps.
    + apply prefix_inv in Hhttps as [rest ->]. exists "https://", rest. auto.
    + exists "http://", s. auto.
Qed.

Lemma scheme_unique scheme scheme' rest rest' :
  scheme = "http://" \/ scheme = "https://" ->
  scheme' = "http://" \/ scheme' = "https://" ->
  scheme +:+ rest = scheme' +:+ rest' -> scheme = scheme' /\ rest = rest'.
Proof.
  intros [-> | ->] [-> | ->] Heq; rewrite ?append_cons, ?append_nil_l in Heq;
    try discriminate; by injection Heq as ->.
Qed.

Lemma accepts_url_shape s : accepts url_regex (with_scheme s) = true <-> url_shape (with_scheme s).
Proof.
  destruct (with_scheme_prefix s) as (scheme & rest & -> & Hscheme).
  rewrite (accepts_after_scheme scheme rest Hscheme), accepts_lang, url_shape_rest.
  split.
  - intros Hlang. by exists scheme, rest.
  - intros (scheme' & rest' & Heq & Hscheme' & Hlang).
    by destruct (scheme_unique _ _ _ _ Hscheme Hscheme' Heq) as [_ ->].
Qed.

Lemma ensure_url_with_scheme s :
  ensure_url s
  = if accepts url_regex (with_scheme s)
    then Ok (with_scheme s)
    else Raise (ValueError ("Invalid URL: " +:+ with_scheme s)).
Proof. reflexivity. Qed.

(** X1: [ensure_url] puts [http://] before a string that starts with neither
    [http://] nor [https://], accepts the result when it has the shape of
    a URL and refuses it with a ValueError otherwise. *)
Theorem ensure_url_accepts_url_shape s :
  (url_shape (with_scheme s) -> ensure_url s = Ok (with_scheme s))
  /\ (~ url_shape (with_scheme s) ->
      ensure_url s = Raise (ValueError ("Invalid URL: " +:+ with_scheme s))).
Proof.
  pose proof (accepts_url_shape s) as Hshape. rewrite ensure_url_with_scheme.
  destruct (accepts url_regex (with_scheme s)).
  - split; [done|]. intros Hnot. destruct Hnot. by apply Hshape.
  - split; [|done]. intros Hyes. apply Hshape in Hyes. discriminate.
Qed.

Lemma with_scheme_fixed s : with_scheme (with_scheme s) = with_scheme s.
Proof.
  destruct (with_scheme_prefix s) as (scheme & rest & Heq & Hscheme).
  rewrite Heq. unfold with_scheme at 1.
  destruct Hscheme as [-> | ->]; rewrite prefix_append; [done|].
  by rewrite orb_true_r.
Qed.

(** X2: What [ensure_url] returns is the string itself or the string behind
    [http://], and it is a URL that [ensure_url] returns as it is. *)
Theorem ensure_url_idempotent s u :
  ensure_url s = Ok u ->
  (u = s \/ u = "http://" +:+ s) /\ ensure_url u = Ok u.
Proof.
  rewrite ensure_url_with_scheme.
  destruct (accepts url_regex (with_scheme s)) eqn:Haccepts; [|discriminate].
  intros Hu. injection Hu as <-. split.
  - unfold with_scheme. destruct (_ || _); auto.
  - by rewrite ensure_url_with_scheme, with_scheme_fixed, Haccepts.
Qed.

Lemma ensure_url_idempotent_witness :
  ensure_url "bitcoin.org/bitcoin.pdf" = Ok "http://bitcoin.org/bitcoin.pdf"
  /\ ("http://bitcoin.org/bitcoin.pdf" = "bitcoin.org/bitcoin.pdf"
      \/ "http://bitcoin.org/bitcoin.pdf" = "http://" +:+ "bitcoin.org/bitcoin.pdf")
  /\ ensure_url "http://bitcoin.org/bitcoin.pdf" = Ok "http://bitcoin.org/bitcoin.pdf".
Proof.
  split; [reflexivity|].
  apply (ensure_url_idempotent "bitcoin.org/bitcoin.pdf"). reflexivity.
Defined.

(** Two ways to cut a string at a character outside [P] after a run of
    characters within [P]. *)
Lemma run_prefix P (a b x : string) c y :
  all_chars P a = true -> all_chars P b = true -> P c = false ->
  a +:+ x = b +:+ String c y ->
  exists m, b = a +:+ m /\ x = m +:+ String c y.
Proof.
  revert b. induction a as [|c1 a IH]; intros b Ha Hb Hc Heq.
  - rewrite append_nil_l in Heq. exists b. by rewrite append_nil_l.
  - simpl in Ha. apply andb_true_iff in Ha as [Hc1 Ha].
    rewrite append_cons in Heq. destruct b as [|c2 b].
    + rewrite append_nil_l in Heq. injection Heq as -> _. congruence.
    + rewrite append_cons in Heq. injection Heq as -> Heq.
      simpl in Hb. apply andb_true_iff in Hb as [_ Hb].
      destruct (IH b Ha Hb Hc Heq) as (m & -> & ->).
      exists m. by rewrite append_cons.
Qed.

Lemma no_tail_after_host (m po pa eol rest : string) :
  all_chars is_domain_char m = true ->
  (po = "" \/ lang port po) -> (pa = "" \/ lang path pa) ->
  (eol = "" \/ eol = newline) ->
  po +:+ pa +:+ eol = m +:+ "://" +:+ rest -> False.
Proof.
  intros Hm Hpo Hpa Heol Heq.
  destruct Hpo as [->|Hpo].
  - destruct Hpa as [->|Hpa].
    + destruct Heol as [->| ->]; destruct m as [|c m];
        rewrite ?append_cons, ?append_nil_l in Heq; try discriminate.
      injection Heq as <- _. discriminate.
    + apply lang_path in Hpa as (x & -> & _). destruct m as [|c m];
        rewrite ?append_cons, ?append_nil_l in Heq; try discriminate.
      injection Heq as <- _. discriminate.
  - apply lang_port in Hpo as (digits & -> & Hne & Hdigits).
    destruct digits as [|d digits]; [done|].
    simpl in Hdigits. apply andb_true_iff in Hdigits as [Hd _].
    destruct m as [|c m]; rewrite ?append_cons, ?append_nil_l in Heq.
    + injection Heq as ->. discriminate.
    + injection Heq as <- _. discriminate.
Qed.

(** X3: A string that names a scheme of its own, other than [http] and [https]
    in small letters, is refused: [ftp://...] as well as [HTTP://...]. *)
Theorem foreign_scheme_rejected scheme rest :
  all_chars is_domain_char scheme = true ->
  scheme <> "http" -> scheme <> "https" ->
  ensure_url (scheme +:+ "://" +:+ rest)
  = Raise (ValueError ("Invalid URL: http://" +:+ scheme +:+ "://" +:+ rest)).
Proof.
  intros Hscheme Hhttp Hhttps.
  assert (Hwith : with_scheme (scheme +:+ "://" +:+ rest)
                  = "http://" +:+ scheme +:+ "://" +:+ rest).
  { unfold with_scheme.
    destruct (String.prefix "http://" _) eqn:Hp.
    - apply prefix_inv in Hp as [b Hb].
      destruct (run_prefix is_domain_char "http" scheme ("://" +:+ b) ":" ("//" +:+ rest))
        as (m & -> & Hm); [done..|].
      destruct m as [|c m]; [by rewrite append_empty_r in Hhttp|].
      rewrite !append_cons, append_nil_l in Hm. injection Hm as <- _.
      rewrite all_chars_append in Hscheme. simpl in Hscheme. discriminate.
    - destruct (String.prefix "https://" _) eqn:Hp'; [|done].
      apply prefix_inv in Hp' as [b Hb].
      destruct (run_prefix is_domain_char "https" scheme ("://" +:+ b) ":" ("//" +:+ rest))
        as (m & -> & Hm); [done..|].
      destruct m as [|c m]; [by rewrite append_empty_r in Hhttps|].
      rewrite !append_cons, append_nil_l in Hm. injection Hm as <- _.
      rewrite all_chars_append in Hscheme. simpl in Hscheme. discriminate. }
  rewrite ensure_url_with_scheme.
  destruct (accepts url_regex _) eqn:Haccepts;
    [|by rewrite Hwith, <- (append_assoc "Invalid URL: ")].
  exfalso. apply accepts_url_shape in Haccepts. rewrite Hwith in Haccepts.
  revert Haccepts. intros Hshape. apply url_shape_rest in Hshape as (scheme' & rest' & Heq & Hscheme' & Hlang).
  destruct (scheme_unique "http://" scheme' _ rest' (or_introl eq_refl) Hscheme' Heq)
    as [_ <-].
  apply lang_url_rest in Hlang as (host & po & pa & eol & Heq' & Hne & Hhost & Hpo & Hpa & Heol).
  symmetry in Heq'.
  destruct (run_prefix is_domain_char host scheme (po +:+ pa +:+ eol) ":" ("//" +:+ rest))
    as (m & -> & Hm); [done..|].
  rewrite all_chars_append in Hscheme. apply andb_true_iff in Hscheme as [_ Hm'].
  by apply (no_tail_after_host m po pa eol rest).
Qed.

Lemma foreign_scheme_rejected_witness :
  ensure_url ("HTTP" +:+ "://" +:+ "bitcoin.org/bitcoin.pdf")
  = Raise (ValueError ("Invalid URL: http://" +:+ "HTTP" +:+ "://" +:+ "bitcoin.org/bitcoin.pdf")).
Proof. apply (foreign_scheme_rejected "HTTP" "bitcoin.org/bitcoin.pdf"); done. Defined.

(** ** Stripping twice *)

Lemma rstrip_rstrip s : rstrip (rstrip s) = rstrip s.
Proof.
  induction s as [|c s IH]; [done|]. simpl.
  destruct (rstrip s) as [|c' r] eqn:Hr.
  - destruct (is_space c) eqn:Hc; [done|]. simpl. by rewrite Hc.
  - change (rstrip (String c (String c' r)))
      with (match rstrip (String c' r) with
            | EmptyString => if is_space c then EmptyString else String c EmptyString
            | r0 => String c r0
            end).
    by rewrite IH.
Qed.

Lemma lstrip_lstrip s : lstrip (lstrip s) = lstrip s.
Proof.
  induction s as [|c s IH]; [done|]. simpl.
  destruct (is_space c) eqn:Hc; [done|]. simpl. by rewrite Hc.
Qed.

Lemma rstrip_lstrip t : rstrip t = t -> rstrip (lstrip t) = lstrip t.
Proof.
  induction t as [|c t IH]; [done|]. intros Hfixed. simpl.
  destruct (is_space c) eqn:Hc; [|done].
  apply IH. simpl in Hfixed. rewrite Hc in Hfixed.
  destruct (rstrip t) as [|c' r]; [discriminate|]. by injection Hfixed.
Qed.

Lemma strip_strip s : strip (strip s) = strip s.
Proof.
  unfold strip. rewrite rstrip_lstrip by apply rstrip_rstrip. apply lstrip_lstrip.
Qed.

(** ** Step 1: fetching *)

Lemma ensure_url_Raise s e :
  ensure_url s = Raise e -> exists msg, e = ValueError msg.
Proof.
  rewrite ensure_url_with_scheme. destruct (accepts _ _); [discriminate|].
  intros Heq. injection Heq as <-. by eexists.
Qed.

Lemma for_each_first_Raise {A B} (f : A -> result B) xs x e :
  x ∈ xs -> f x = Raise e ->
  exists x' e', x' ∈ xs /\ f x' = Raise e' /\ for_each f xs = Raise e'.
Proof.
  intros Hx Hfx. induction xs as [|x0 xs IH]; [inversion Hx|].
  simpl. destruct (f x0) as [y|e0] eqn:Hf0.
  - apply elem_of_cons in Hx as [->|Hx]; [congruence|].
    destruct (IH Hx) as (x' & e' & Hx' & Hfx' & Hrun).
    exists x', e'. split; [by right|]. split; [done|]. simpl. by rewrite Hrun.
  - exists x0, e0. split; [left | done].
Qed.

Lemma Document_eta (d : Document) : mkDocument (page_content d) (metadata d) = d.
Proof. by destruct d. Qed.

Lemma map_Document_eta (l : list Document) :
  map (fun d => mkDocument (page_content d) (metadata d)) l = l.
Proof. induction l as [|d l IH]; [done|]. simpl. by rewrite IH, Document_eta. Qed.

Section FetchProperties.
Variable download : list string -> string -> fetched.

Lemma fetch_loop_pages urls data requested :
  Forall (fun outcome => forall e, outcome <> OtherException e)
         (responses download requested urls) ->
  fetch_loop download urls data requested
  = (Ok (data ++ concat (map pages_of (responses download requested urls))),
     requested ++ urls).
Proof.
  revert data requested. induction urls as [|url urls IH]; intros data requested Hall.
  - simpl. by rewrite !app_nil_r.
  - simpl in Hall. apply Forall_cons in Hall as [Hurl Hall]. simpl.
    destruct (download requested url) as [pdf_docs|msg|e].
    + rewrite IH by done. rewrite map_Document_eta, <- !app_assoc. done.
    + rewrite IH by done. rewrite <- !app_assoc. done.
    + by destruct (Hurl e).
Qed.

Lemma fetch_loop_stops urls1 url urls2 e data requested :
  Forall (fun outcome => forall e, outcome <> OtherException e)
         (responses download requested urls1) ->
  download (requested ++ urls1) url = OtherException e ->
  fetch_loop download (urls1 ++ url :: urls2) data requested
  = (Raise e, requested ++ urls1 ++ [url]).
Proof.
  revert data requested. induction urls1 as [|u urls1 IH]; intros data requested Hall Hurl.
  - simpl. rewrite app_nil_r in Hurl. by rewrite Hurl.
  - simpl in Hall. apply Forall_cons in Hall as [Hu Hall]. simpl.
    rewrite (app_assoc requested [u] urls1 : requested ++ u :: urls1 = _) in Hurl.
    destruct (download requested u) as [pdf_docs|msg|e'].
    + rewrite IH by done. by rewrite <- !app_assoc.
    + rewrite IH by done. by rewrite <- !app_assoc.
    + by destruct (Hu e').
Qed.

Lemma fetch_loop_requested urls data requested :
  exists done, (fetch_loop download urls data requested).2 = requested ++ done
               /\ done `prefix_of` urls.
Proof.
  revert data requested. induction urls as [|url urls IH]; intros data requested.
  - exists []. simpl. by rewrite app_nil_r.
  - simpl. destruct (download requested url) as [pdf_docs|msg|e].
    + destruct (IH (data ++ map (fun pdf_doc => mkDocument (page_content pdf_doc)
                                                       (metadata pdf_doc)) pdf_docs)
                   (requested ++ [url])) as (done & -> & Hprefix).
      exists (url :: done). rewrite <- app_assoc. split; [done|]. by apply prefix_cons.
    + destruct (IH data (requested ++ [url])) as (done & -> & Hprefix).
      exists (url :: done). rewrite <- app_assoc. split; [done|]. by apply prefix_cons.
    + exists [url]. split; [done|]. apply prefix_cons, prefix_nil.
Qed.

(** X5: One URL that [ensure_url] refuses stops the whole fetch before any
    request is made: [fetch_pdf_content] raises a ValueError, [pdf_data]
    stays empty, and the cell ends in an IndexError at [pdf_data[0]]. *)
Theorem invalid_url_fetches_nothing urls url e :
  url ∈ urls -> strip url <> "" -> ensure_url (strip url) = Raise e ->
  (exists msg, fetch_pdf_content download urls = (Raise (ValueError msg), []))
  /\ pdf_data download urls = []
  /\ fetch_cell download urls = Raise (IndexError "list index out of range").
Proof.
  intros Hurl Hblank Hbad.
  assert (Hfetch : exists msg,
             fetch_pdf_content download urls = (Raise (ValueError msg), [])).
  { unfold fetch_pdf_content, checked_urls.
    destruct (for_each_first_Raise (fun url => ensure_url (strip url))
                (filter (fun url => strip url <> "") urls) url e)
      as (url' & e' & _ & Hbad' & ->); [by apply list_elem_of_filter | done |].
    apply ensure_url_Raise in Hbad' as [msg ->]. by exists msg. }
  destruct Hfetch as [msg Hfetch]. split; [by exists msg|].
  unfold fetch_cell, pdf_data. by rewrite Hfetch.
Qed.

(** X6: When every URL is accepted and no request ends in an exception other
    than a RequestException, the pages come back in the order of the URLs,
    the failed requests left out, and every checked URL has been requested
    once, in order. *)
Theorem fetch_skips_failed_requests urls checked :
  checked_urls urls = Ok checked ->
  Forall (fun outcome => forall e, outcome <> OtherException e)
         (responses download [] checked) ->
  fetch_pdf_content download urls
  = (Ok (concat (map pages_of (responses download [] checked))), checked).
Proof.
  intros Hchecked Hall. unfold fetch_pdf_content. rewrite Hchecked.
  by rewrite fetch_loop_pages.
Qed.

(** X7: An exception other than a RequestException ends the fetch: the URLs
    after it are not requested, and the pages fetched before it are lost. *)
Theorem other_exception_discards_pages urls checked1 url checked2 e :
  checked_urls urls = Ok (checked1 ++ url :: checked2) ->
  Forall (fun outcome => forall e, outcome <> OtherException e)
         (responses download [] checked1) ->
  download checked1 url = OtherException e ->
  fetch_pdf_content download urls = (Raise e, checked1 ++ [url])
  /\ pdf_data download urls = [].
Proof.
  intros Hchecked Hall Hurl.
  assert (Hfetch : fetch_pdf_content download urls = (Raise e, checked1 ++ [url])).
  { unfold fetch_pdf_content. rewrite Hchecked.
    by rewrite (fetch_loop_stops checked1 url checked2 e). }
  split; [done|]. unfold pdf_data. by rewrite Hfetch.
Qed.

(** X8: Whatever the outcome, a URL that has been requested is the checked
    form of a non-blank input, and has the shape of a URL. *)
Theorem only_checked_urls_requested urls u :
  u ∈ (fetch_pdf_content download urls).2 ->
  (exists url, url ∈ urls /\ strip url <> "" /\ ensure_url (strip url) = Ok u)
  /\ url_shape u.
Proof.
  unfold fetch_pdf_content. destruct (checked_urls urls) as [checked|e] eqn:Hchecked.
  - intros Hu.
    destruct (fetch_loop_requested checked [] []) as (done & Hdone & Hprefix).
    rewrite Hdone in Hu. simpl in Hu.
    assert (Hin : u ∈ checked).
    { destruct Hprefix as [k ->]. apply elem_of_app. by left. }
    destruct (for_each_Ok_elem _ _ _ _ Hchecked Hin) as (url & Hurl & Hok).
    apply list_elem_of_filter in Hurl as [Hblank Hurl].
    split; [by exists url|].
    pose proof Hok as Hok'. rewrite ensure_url_with_scheme in Hok'.
    destruct (accepts url_regex (with_scheme (strip url))) eqn:Haccepts; [|discriminate].
    injection Hok' as <-. by apply accepts_url_shape.
  - simpl. inversion 1.
Qed.

Lemma checked_urls_padding urls :
  checked_urls (map strip (filter (fun url => strip url <> "") urls))
  = checked_urls urls.
Proof.
  unfold checked_urls. induction urls as [|url urls IH]; [done|].
  destruct (decide (strip url = "")) as [Hblank|Hblank].
  - by rewrite filter_cons_False by (by intros ?).
  - rewrite filter_cons_True by done. simpl.
    rewrite filter_cons_True by (by rewrite strip_strip).
    simpl. rewrite strip_strip, IH. done.
Qed.

(** X9: Blank entries and white space around a URL make no difference. *)
Theorem fetch_ignores_padding urls :
  fetch_pdf_content download urls
  = fetch_pdf_content download (map strip (filter (fun url => strip url <> "") urls)).
Proof. unfold fetch_pdf_content. by rewrite checked_urls_padding. Qed.

End FetchProperties.

Lemma invalid_url_fetches_nothing_witness :
  (exists msg,
      fetch_pdf_content sample_download ["a.org/1.pdf"; "b c"]
      = (Raise (ValueError msg), []))
  /\ pdf_data sample_download ["a.org/1.pdf"; "b c"] = []
  /\ fetch_cell sample_download ["a.org/1.pdf"; "b c"]
     = Raise (IndexError "list index out of range").
Proof.
  apply (invalid_url_fetches_nothing sample_download ["a.org/1.pdf"; "b c"] "b c"
           (ValueError "Invalid URL: http://b c")).
  - right. left.
  - discriminate.
  - reflexivity.
Defined.

Lemma fetch_skips_failed_requests_witness :
  fetch_pdf_content sample_download [" a.org/1.pdf "; " "; "b.org/2.pdf"]
  = (Ok (concat (map pages_of
                   (responses sample_download []
                      ["http://a.org/1.pdf"; "http://b.org/2.pdf"]))),
     ["http://a.org/1.pdf"; "http://b.org/2.pdf"]).
Proof.
  apply (fetch_skips_failed_requests sample_download
           [" a.org/1.pdf "; " "; "b.org/2.pdf"]).
  - reflexivity.
  - repeat constructor; discriminate.
Defined.

Lemma other_exception_discards_pages_witness :
  fetch_pdf_content broken_download ["a.org/1.pdf"; "b.org/2.pdf"; "c.org/3.pdf"]
  = (Raise (ValueError "Failed to open file"),
     ["http://a.org/1.pdf"] ++ ["http://b.org/2.pdf"])
  /\ pdf_data broken_download ["a.org/1.pdf"; "b.org/2.pdf"; "c.org/3.pdf"] = [].
Proof.
  apply (other_exception_discards_pages broken_download
           ["a.org/1.pdf"; "b.org/2.pdf"; "c.org/3.pdf"]
           ["http://a.org/1.pdf"] "http://b.org/2.pdf" ["http://c.org/3.pdf"]).
  - reflexivity.
  - repeat constructor; discriminate.
  - reflexivity.
Defined.

Lemma only_checked_urls_requested_witness :
  (exists url, url ∈ [" a.org/1.pdf "] /\ strip url <> ""
               /\ ensure_url (strip url) = Ok "http://a.org/1.pdf")
  /\ url_shape "http://a.org/1.pdf".
Proof.
  apply (only_checked_urls_requested sample_download [" a.org/1.pdf "]).
  left.
Defined.

Lemma strip_leading_space c s : is_space c = true -> strip (String c s) = strip s.
Proof.
  intros Hc. unfold strip. simpl. destruct (rstrip s) as [|c' r].
  - by rewrite Hc.
  - simpl. by rewrite Hc.
Qed.

Lemma prefix_other (c c' : ascii) (p s : string) :
  c <> c' -> String.prefix (String c p) (String c' s) = false.
Proof. intros Hne. cbn [String.prefix]. by destruct (ascii_dec c c'). Qed.

Lemma space_outside_domain c : is_space c = true -> is_domain_char c = false.
Proof. destruct c as [[] [] [] [] [] [] [] []]; vm_compute; congruence. Qed.

(** X4: [ensure_url] on its own, as the validation cell calls it, refuses a
    string that starts with white space, which [fetch_pdf_content] strips
    and checks as if the white space were not there. *)
Theorem leading_space_refused c s :
  is_space c = true ->
  ensure_url (String c s) = Raise (ValueError ("Invalid URL: http://" +:+ String c s))
  /\ checked_urls [String c s] = checked_urls [s].
Proof.
  intros Hc. split.
  - assert (Hwith : with_scheme (String c s) = "http://" +:+ String c s).
    { assert (Hh : "h"%char <> c) by (intros <-; discriminate).
      unfold with_scheme. by rewrite !prefix_other. }
    rewrite ensure_url_with_scheme.
    destruct (accepts url_regex _) eqn:Haccepts;
      [|by rewrite Hwith, <- (append_assoc "Invalid URL: ")].
    exfalso. apply accepts_url_shape in Haccepts. rewrite Hwith in Haccepts.
    apply url_shape_rest in Haccepts as (scheme' & rest' & Heq & Hscheme' & Hlang).
    destruct (scheme_unique "http://" scheme' _ rest' (or_introl eq_refl) Hscheme' Heq)
      as [_ <-].
    apply lang_url_rest in Hlang as (host & po & pa & eol & Heq' & Hne & Hhost & _).
    destruct host as [|c' host]; [done|]. rewrite append_cons in Heq'.
    injection Heq' as <- _. simpl in Hhost.
    by rewrite (space_outside_domain c Hc) in Hhost.
  - unfold checked_urls. pose proof (strip_leading_space c s Hc) as Hstrip.
    destruct (decide (strip s = "")) as [Hblank|Hblank].
    + rewrite !filter_cons_False; [done | by intros ? | intros ?; congruence].
    + rewrite !filter_cons_True; [|done | congruence]. simpl. by rewrite Hstrip.
Qed.

Lemma leading_space_refused_witness :
  ensure_url (String " " "bitcoin.org")
  = Raise (ValueError ("Invalid URL: http://" +:+ String " " "bitcoin.org"))
  /\ checked_urls [String " " "bitcoin.org"] = checked_urls ["bitcoin.org"].
Proof. apply (leading_space_refused " " "bitcoin.org"). reflexivity. Defined.

(** ** Step 2: trimming *)

(** X10: Trimming keeps the pages and their contents, leaves every page with a
    part of its metadata, does nothing when done again, and depends on the
    allow-list only as a set of keys. *)
Theorem trimming_is_a_projection important pdf_data :
  map page_content (trimmed_pdf_data important pdf_data) = map page_content pdf_data
  /\ Forall2 (fun trimmed data => metadata trimmed ⊆ metadata data)
             (trimmed_pdf_data important pdf_data) pdf_data
  /\ trimmed_pdf_data important (trimmed_pdf_data important pdf_data)
     = trimmed_pdf_data important pdf_data
  /\ (forall important',
        (forall key, key ∈ important' <-> key ∈ important) ->
        trimmed_pdf_data important' pdf_data = trimmed_pdf_data important pdf_data).
Proof.
  unfold trimmed_pdf_data. repeat split.
  - rewrite map_map. done.
  - induction pdf_data as [|d l IH]; constructor; [|done]. simpl.
    rewrite trimmed_metadata_filter. apply map_filter_subseteq.
  - rewrite map_map. apply map_ext. intros d. simpl. f_equal.
    apply map_eq. intros key. rewrite !trimmed_metadata_lookup.
    by destruct (decide (key ∈ important)).
  - intros important' Hsame. apply map_ext. intros d. f_equal.
    apply map_eq. intros key. rewrite !trimmed_metadata_lookup.
    destruct (decide (key ∈ important')) as [Hin|Hnin], (decide (key ∈ important));
      try done; by apply Hsame in Hin || (exfalso; apply Hnin; by apply Hsame).
Qed.

(** ** Step 3: the chunks of several documents *)

Lemma for_each_app {A B} (f : A -> result B) xs1 xs2 :
  for_each f (xs1 ++ xs2)
  = (ys1 ← for_each f xs1; ys2 ← for_each f xs2; Ok (ys1 ++ ys2)).
Proof.
  induction xs1 as [|x xs1 IH]; simpl.
  - by destruct (for_each f xs2).
  - destruct (f x) as [y|e]; [|done]. simpl. rewrite IH.
    destruct (for_each f xs1) as [ys1|e]; [|done]. simpl.
    by destruct (for_each f xs2).
Qed.

(** X11: No chunk spans two documents: splitting a list of documents gives the
    chunks of its first part followed by the chunks of the rest. *)
Theorem split_text_app documents1 documents2 co cs sep :
  split_text (documents1 ++ documents2) co cs sep
  = (chunks1 ← split_text documents1 co cs sep;
     chunks2 ← split_text documents2 co cs sep;
     Ok (chunks1 ++ chunks2)).
Proof.
  unfold split_text. destruct (CharacterTextSplitter co cs sep) as [splitter|e]; [|done].
  simpl. unfold split_documents. rewrite for_each_app.
  destruct (for_each _ documents1) as [ys1|e]; [|done]. simpl.
  destruct (for_each _ documents2) as [ys2|e]; [|done]. simpl.
  by rewrite concat_app.
Qed.

Lemma join_docs_stripped sep group text :
  join_docs sep group = Some text -> text <> "" /\ strip text = text.
Proof.
  unfold join_docs. destruct (strip (str_join sep group)) as [|c t] eqn:Hstrip;
    [discriminate|].
  intros Heq. injection Heq as <-. split; [done|].
  by rewrite <- Hstrip, strip_strip.
Qed.

(** X12: No chunk is empty, and none starts or ends with white space. *)
Theorem chunks_are_stripped documents co cs sep chunks chunk :
  split_text documents co cs sep = Ok chunks ->
  chunk ∈ chunks ->
  page_content chunk <> "" /\ strip (page_content chunk) = page_content chunk.
Proof.
  intros Hrun Hchunk. apply split_text_Ok in Hrun as [_ Hrun].
  destruct (split_documents_elem _ _ _ _ Hrun Hchunk)
    as (parent & texts & _ & Hsplit & Htext & _).
  apply splitter_split_text_groups in Hsplit as (groups & -> & _).
  unfold join_groups in Htext.
  apply list_elem_of_omap in Htext as (group & _ & Hjoin).
  by apply join_docs_stripped in Hjoin.
Qed.

Lemma chunks_are_stripped_witness :
  split_text [doc " aa  bb "] 0 3 " " = Ok [doc "aa"; doc "bb"]
  /\ page_content (doc "bb") <> ""
  /\ strip (page_content (doc "bb")) = page_content (doc "bb").
Proof.
  split; [reflexivity|].
  apply (chunks_are_stripped [doc " aa  bb "] 0 3 " " [doc "aa"; doc "bb"]).
  - reflexivity.
  - right. left.
Defined.

(** ** Steps 7 and 8: the instruction is not escaped *)

(** X16: A context that holds the line of the question gives the instruction of
    a shorter context with a longer question. *)
Theorem instructions_ambiguous a b c :
  instructions (a +:+ " " +:+ newline +:+ "Question: " +:+ b) c
  = instructions a (b +:+ " " +:+ newline +:+ "Question: " +:+ c).
Proof. unfold instructions. by rewrite !append_assoc. Qed.

(** ** Step 4: what an insert leaves as it was *)

Section Build.
Context `{EmbeddingGateway}.

(** X13: An insert that returns keeps every stored record in its place and adds,
    behind them, records for documents of the batch only, in the order of
    the batch and under new identifiers. *)
Theorem insert_only_appends (store store' : Chroma) ingest_data allow_duplicates limit :
  add_documents_to_vector_store store ingest_data allow_duplicates limit = Ok store' ->
  exists news,
    store' = store ++ news
    /\ map to_document news `sublist_of` ingest_data
    /\ NoDup (map rec_id news)
    /\ forall r, r ∈ news -> rec_id r ∉ map rec_id store.
Proof.
  unfold add_documents_to_vector_store. destruct ingest_data as [|d ds].
  - intros Hrun. injection Hrun as <-. exists []. rewrite app_nil_r.
    repeat split; [constructor | constructor | intros r Hr; inversion Hr].
  - intros Hrun. apply bind_Ok in Hrun as (scanned & _ & Hrun).
    destruct (add_documents_nil_filter store
                (filter (fun doc => doc ∉ scanned) (d :: ds)))
      as (news & Hnews & Hdocs & Hnodup & Hfresh).
    rewrite Hnews in Hrun. injection Hrun as <-.
    exists news. split; [done|]. split; [|done].
    rewrite Hdocs. apply sublist_filter.
Qed.

(** The build cell of the notebook on a collection that is empty. *)
Lemma chroma_store_empty Chroma_init collection_name embedding_model pdf_data :
  Chroma_init collection_name None None embedding_model = [] ->
  chroma_store Chroma_init collection_name embedding_model pdf_data
  = (splitted_data ←
       split_text (trimmed_pdf_data important_metadata pdf_data) 200 1000 " ";
     Ok (add_documents [] splitted_data)).
Proof.
  intros Hinit. unfold chroma_store, build_vector_store. simpl. rewrite Hinit.
  destruct (split_text _ 200 1000 " ") as [chunks|e]; [|done]. simpl.
  unfold add_documents_to_vector_store. destruct chunks as [|d ds]; [done|].
  simpl. by rewrite !filter_not_in_nil.
Qed.

(** The build cell on a collection that holds a record without an ["id"]
    metadata key. *)
Lemma chroma_store_unkeyed Chroma_init collection_name embedding_model pdf_data chunks :
  Chroma_init collection_name None None embedding_model <> [] ->
  Forall (fun r => rec_metadata r !! "id" = None)
         (Chroma_init collection_name None None embedding_model) ->
  split_text (trimmed_pdf_data important_metadata pdf_data) 200 1000 " " = Ok chunks ->
  chunks <> [] ->
  chroma_store Chroma_init collection_name embedding_model pdf_data
  = Raise (KeyError "id").
Proof.
  intros Hne Hunkeyed Hsplit Hchunks. unfold chroma_store, build_vector_store.
  rewrite Hsplit. simpl.
  set (store := Chroma_init collection_name None None embedding_model) in *.
  unfold add_documents_to_vector_store. destruct chunks as [|d ds]; [done|].
  simpl negb. cbv iota. unfold similarity_search.
  change (0 <? 10) with true. cbv iota.
  change (Ok ?s ≫= ?f) with (f s). cbv beta.
  assert (Hfirst : exists r, r ∈ search store "" (Z.to_nat 10) /\ r ∈ store).
  { unfold search. pose proof (rank_by_perm (query_distance "") store) as Hperm.
    destruct (rank_by (query_distance "") store) as [|r ranked].
    - apply Permutation_nil_l in Hperm. by destruct Hne.
    - exists r. split; [left|]. rewrite <- Hperm. left. }
  destruct Hfirst as (r & Hr & Hstore).
  rewrite (for_each_del_id_Raise _ r); [done | done |].
  rewrite Forall_forall in Hunkeyed. by apply Hunkeyed.
Qed.

(** X14: On an empty collection the build cell stores every chunk of the
    trimmed pages, in order: nothing is left out, although the cell asks
    for no duplicates. *)
Theorem first_build_stores_every_chunk
    Chroma_init collection_name embedding_model pdf_data :
  Chroma_init collection_name None None embedding_model = [] ->
  exists chunks store,
    split_text (trimmed_pdf_data important_metadata pdf_data) 200 1000 " " = Ok chunks
    /\ chroma_store Chroma_init collection_name embedding_model pdf_data = Ok store
    /\ stored_documents store = chunks.
Proof.
  intros Hinit. rewrite chroma_store_empty by done.
  destruct (split_text_total (trimmed_pdf_data important_metadata pdf_data) 200 1000 " ")
    as [chunks Hchunks]; [lia | lia |].
  rewrite Hchunks. exists chunks, (add_documents [] chunks).
  split; [done|]. split; [done|].
  destruct (add_documents_appends [] chunks) as (news & -> & Hdocs & _).
  done.
Qed.

Lemma trimmed_chunk_unkeyed pdf_data chunks chunk :
  split_text (trimmed_pdf_data important_metadata pdf_data) 200 1000 " " = Ok chunks ->
  chunk ∈ chunks -> metadata chunk !! "id" = None.
Proof.
  intros Hsplit Hchunk. apply split_text_Ok in Hsplit as [_ Hsplit].
  destruct (split_documents_elem _ _ _ _ Hsplit Hchunk)
    as (parent & texts & Hparent & _ & _ & ->).
  apply trimmed_pdf_data_elem in Hparent as (page & _ & _ & ->).
  rewrite trimmed_metadata_lookup. rewrite decide_False; [done|].
  unfold important_metadata. rewrite !elem_of_cons, elem_of_nil.
  intros [?|[?|[?|[?|[]]]]]; discriminate.
Qed.

(** X15: Building twice: once the first run has stored a chunk, the same cell
    run again on the collection it left raises KeyError at
    [del doc.metadata['id']]. *)
Theorem second_build_raises_KeyError
    collection_name embedding_model pdf_data (store : Chroma) :
  chroma_store (fun _ _ _ _ => []) collection_name embedding_model pdf_data = Ok store ->
  store <> [] ->
  chroma_store (fun _ _ _ _ => store) collection_name embedding_model pdf_data
  = Raise (KeyError "id").
Proof.
  intros Hfirst Hne. rewrite chroma_store_empty in Hfirst by done.
  apply bind_Ok in Hfirst as (chunks & Hsplit & Hstore). injection Hstore as <-.
  destruct (add_documents_appends [] chunks) as (news & Hnews & Hdocs & _).
  apply (chroma_store_unkeyed _ _ _ _ chunks); [done | | done |].
  - rewrite Hnews. simpl. apply Forall_forall. intros r Hr.
    apply (trimmed_chunk_unkeyed pdf_data chunks (to_document r) Hsplit).
    rewrite <- Hdocs. apply list_elem_of_fmap. by exists r.
  - intros ->. by destruct Hne.
Qed.

End Build.

Lemma insert_only_appends_witness :
  exists news,
    add_documents (H := length_gateway) keyed_store [doc "a"; doc "a"] = keyed_store ++ news
    /\ map to_document news `sublist_of` [doc "a"; doc "b"; doc "a"]
    /\ NoDup (map rec_id news)
    /\ forall r, r ∈ news -> rec_id r ∉ map rec_id keyed_store.
Proof.
  apply (insert_only_appends (H := length_gateway) keyed_store _
           [doc "a"; doc "b"; doc "a"] false (Some 10)).
  reflexivity.
Defined.

Lemma first_build_stores_every_chunk_witness :
  exists chunks store,
    split_text (trimmed_pdf_data important_metadata [sample_page]) 200 1000 " " = Ok chunks
    /\ chroma_store (H := length_gateway) (fun _ _ _ _ => [])
         "vector_collection" "text-embedding-3-small" [sample_page] = Ok store
    /\ stored_documents store = chunks.
Proof.
  apply (first_build_stores_every_chunk (H := length_gateway) (fun _ _ _ _ => [])).
  reflexivity.
Defined.

Lemma second_build_raises_KeyError_witness :
  chroma_store (H := length_gateway)
    (fun _ _ _ _ =>
       add_documents (H := length_gateway) []
         [mkDocument "aa bb cc dd" (<["title" := PyStr ""]> (<["page" := PyInt 0]> ∅))])
    "vector_collection" "text-embedding-3-small" [sample_page]
  = Raise (KeyError "id").
Proof.
  apply (second_build_raises_KeyError (H := length_gateway)
           "vector_collection" "text-embedding-3-small" [sample_page]).
  - vm_compute. reflexivity.
  - discriminate.
Defined.
